(** * dirscan: aggregation model of the directory scanner

    A shallow embedding of the Go sources of storagebit/dirscan.  The
    repository holds five variants of the scanner:

    - [Main]     : src/main.go  (flags, signal handler, averageFileSize);
    - [Logged]   : the variant with a logger but no early returns;
    - [Plain]    : the first single-threaded variant (one argument);
    - [Pool]     : the worker-pool variant with the guarded average;
    - [PoolProc] : the worker-pool variant that skips /proc and /run.

    [Main], [Logged] and [Plain] share, line for line, the code that folds
    one file into the two groupings ([fileTypes] and [users]); it is
    embedded once, as [aggregate].  Logging and the spinner only write to
    the terminal and are left out. *)

From Stdlib Require Import ZArith List String Ascii Bool Lia Permutation.
From Stdlib Require Import DecimalString.
Import ListNotations.

Local Open Scope string_scope.
Local Open Scope Z_scope.

(** ** Machine integers *)

(** Go's [int64]: a [Z] kept in [-2^63, 2^63) by [wrap]. *)
Module Int64.
Definition modulus : Z := 2 ^ 64.
Definition half : Z := 2 ^ 63.
Definition wrap (z : Z) : Z := (z + half) mod modulus - half.
Definition add (a b : Z) : Z := wrap (a + b).
Definition mul (a b : Z) : Z := wrap (a * b).
Definition in_range (z : Z) : Prop := - half <= z < half.
End Int64.

(** Go's [uint64]: a [Z] kept in [0, 2^64). *)
Module Uint64.
Definition modulus : Z := 2 ^ 64.
Definition wrap (z : Z) : Z := z mod modulus.
Definition add (a b : Z) : Z := wrap (a + b).
Definition in_range (z : Z) : Prop := 0 <= z < modulus.
End Uint64.

(** Running accumulator, as a Go loop [for _, x := range l { s += x }]. *)
Definition sum64 (l : list Z) : Z := fold_left Int64.add l 0.

(** ** Data model (the four structs of the single-threaded variants) *)

(** [fileTypeUserInfo]: one user inside a file type. *)
Record fileTypeUserInfo : Type := mkFileTypeUserInfo {
  ftu_name : string;
  ftu_size : Z;
  ftu_count : Z
}.

(** [fileType]: one extension with its per-user breakdown. *)
Record fileType : Type := mkFileType {
  ft_extension : string;
  ft_size : Z;
  ft_count : Z;
  ft_users : list fileTypeUserInfo
}.

(** [userFileType]: one extension inside a user. *)
Record userFileType : Type := mkUserFileType {
  uft_extension : string;
  uft_size : Z;
  uft_count : Z
}.

(** [userInfo]: one user with its per-extension breakdown. *)
Record userInfo : Type := mkUserInfo {
  ui_name : string;
  ui_size : Z;
  ui_count : Z;
  ui_filetypes : list userFileType
}.

(** The variables the walk callback closes over. *)
Record scanState : Type := mkScanState {
  fileTypes : list fileType;
  users : list userInfo;
  totalFilesCount : Z;
  totalCapacity : Z;
  totalDirectoriesCount : Z
}.

Definition initialState : scanState :=
  {| fileTypes := []; users := []; totalFilesCount := 0;
     totalCapacity := 0; totalDirectoriesCount := 0 |}.

(** ** The aggregator *)

(** The shape shared by the four loops
    [for i := range l { if key(l[i]) == k { update l[i]; found = true; break } }]:
    the first element that matches is updated in place, the rest is left
    alone, and the flag tells whether there was one. *)
Fixpoint update_first {A : Type} (hit : A -> bool) (upd : A -> A) (l : list A)
  : list A * bool :=
  match l with
  | [] => ([], false)
  | x :: rest =>
      if hit x then (upd x :: rest, true)
      else let '(rest', found) := update_first hit upd rest in (x :: rest', found)
  end.

(** Inner loop over [fileTypes[i].users], then the append when [!userFound]. *)
Definition addUser (owner : string) (size : Z) (us : list fileTypeUserInfo)
  : list fileTypeUserInfo :=
  let '(us', userFound) :=
    update_first (fun u => String.eqb (ftu_name u) owner)
      (fun u => {| ftu_name := ftu_name u;
                   ftu_size := Int64.add (ftu_size u) size;
                   ftu_count := Int64.add (ftu_count u) 1 |}) us in
  if userFound then us'
  else us' ++ [ {| ftu_name := owner; ftu_size := size; ftu_count := 1 |} ].

(** Outer loop over [fileTypes], then the append when [!extensionFound]. *)
Definition addFileType (extension owner : string) (size : Z) (fts : list fileType)
  : list fileType :=
  let '(fts', extensionFound) :=
    update_first (fun t => String.eqb (ft_extension t) extension)
      (fun t => {| ft_extension := ft_extension t;
                   ft_size := Int64.add (ft_size t) size;
                   ft_count := Int64.add (ft_count t) 1;
                   ft_users := addUser owner size (ft_users t) |}) fts in
  if extensionFound then fts'
  else fts' ++ [ {| ft_extension := extension; ft_size := size; ft_count := 1;
                    ft_users := [ {| ftu_name := owner; ftu_size := size;
                                     ftu_count := 1 |} ] |} ].

(** Inner loop over [users[i].filetypes], then the append when
    [!userFileExtensionFound]. *)
Definition addExtension (extension : string) (size : Z) (fs : list userFileType)
  : list userFileType :=
  let '(fs', userFileExtensionFound) :=
    update_first (fun f => String.eqb (uft_extension f) extension)
      (fun f => {| uft_extension := uft_extension f;
                   uft_size := Int64.add (uft_size f) size;
                   uft_count := Int64.add (uft_count f) 1 |}) fs in
  if userFileExtensionFound then fs'
  else fs' ++ [ {| uft_extension := extension; uft_size := size; uft_count := 1 |} ].

(** Outer loop over [users], then the append when [!extensionUserFound]. *)
Definition addUserInfo (extension owner : string) (size : Z) (us : list userInfo)
  : list userInfo :=
  let '(us', extensionUserFound) :=
    update_first (fun u => String.eqb (ui_name u) owner)
      (fun u => {| ui_name := ui_name u;
                   ui_size := Int64.add (ui_size u) size;
                   ui_count := Int64.add (ui_count u) 1;
                   ui_filetypes := addExtension extension size (ui_filetypes u) |}) us in
  if extensionUserFound then us'
  else us' ++ [ {| ui_name := owner; ui_size := size; ui_count := 1;
                   ui_filetypes := [ {| uft_extension := extension; uft_size := size;
                                        uft_count := 1 |} ] |} ].

(** Both groupings updated for one file (main.go lines 324-433). *)
Definition aggregate (extension owner : string) (size : Z) (st : scanState)
  : scanState :=
  {| fileTypes := addFileType extension owner size (fileTypes st);
     users := addUserInfo extension owner size (users st);
     totalFilesCount := totalFilesCount st;
     totalCapacity := totalCapacity st;
     totalDirectoriesCount := totalDirectoriesCount st |}.

(** ** What the callback sees of the file system *)

(** [os.FileInfo] as returned by [Lstat]/[Stat]: [IsDir()], [Size()],
    [Mode()&os.ModeSymlink != 0] and the [Uid] of the [syscall.Stat_t]
    behind [Sys()]. *)
Record FileInfo : Type := mkFileInfo {
  IsDir : bool;
  IsSymlink : bool;
  Size : Z;
  Uid : Z
}.

(** [user.User], the two fields the scanner touches. *)
Record User : Type := mkUser {
  User_Uid : string;
  Username : string
}.

(** A line handed out by [bufio.Scanner], as the runes that
    [for _, c := range line] iterates over. *)
Definition line : Type := list Z.

(** One invocation of the [filepath.Walk] callback together with the
    answers the operating system gives while the callback runs:
    - [v_info] is [None] when Walk passes a nil [info] (its Lstat failed);
    - [v_err] tells whether Walk passes a non-nil [err];
    - [v_open] is the result of [os.Open(path)]: [None] on failure,
      otherwise the lines the scanner yields, in order;
    - [v_lookup] is the result of [user.LookupId]: [None] on failure. *)
Record visit : Type := mkVisit {
  v_path : string;
  v_info : option FileInfo;
  v_err : bool;
  v_open : option (list line);
  v_lookup : option User
}.

(** A Go call either returns or panics (the process dies). *)
Inductive outcome (A : Type) : Type :=
| Returned (a : A)
| Panicked.
Arguments Returned {A} a.
Arguments Panicked {A}.

(** [fmt.Sprintf("%d", z)]. *)
Definition Sprintf_d (z : Z) : string := NilZero.string_of_int (Z.to_int z).

(** [filepath.Ext]: scans back from the last byte to the last path
    separator and returns the suffix that starts at the last dot. *)
Fixpoint Ext_back (rpath : list ascii) (suffix : list ascii) : string :=
  match rpath with
  | [] => ""
  | c :: before =>
      if Ascii.eqb c "/" then ""
      else if Ascii.eqb c "." then string_of_list_ascii (c :: suffix)
      else Ext_back before (c :: suffix)
  end.

Definition Ext (path : string) : string :=
  Ext_back (rev (list_ascii_of_string path)) [].

(** ** The classifier (main.go lines 266-285) *)

Definition no_extension_unknown_format : string := "no_extension_unknown_format".
Definition no_extension_binary : string := "no_extension_binary".
Definition no_extension_text : string := "no_extension_text".

(** The test [c < 32 || c > 126]. *)
Definition outsidePrintable (c : Z) : bool := (c <? 32) || (c >? 126).

(** [for _, c := range line { if c < 32 || c > 126 { isBinary = true; break } }]:
    [isBinary] is the variable declared before the outer loop. *)
Fixpoint scanRunes (isBinary : bool) (l : line) : bool :=
  match l with
  | [] => isBinary
  | c :: rest => if outsidePrintable c then true else scanRunes isBinary rest
  end.

(** [for i := 0; i < 10 && fileScanner.Scan(); i++ { ... }]: the running
    values of [i], [isBinary] and [extension]; the result is [extension]
    when the loop ends. *)
Fixpoint classifyLoop (i : Z) (lines : list line) (isBinary : bool)
    (extension : string) : string :=
  if i <? 10 then
    match lines with
    | [] => extension
    | l :: rest =>
        let isBinary := scanRunes isBinary l in
        let extension :=
          if isBinary then no_extension_binary else no_extension_text in
        classifyLoop (i + 1) rest isBinary extension
    end
  else extension.

(** The [else] branch of [if err != nil] after [os.Open]: the label of a
    readable file whose extension is empty. *)
Definition classify (lines : list line) : string :=
  classifyLoop 0 lines false "".

(** ** Formatting *)

(** The sizes handed to the formatters are integers and every divisor is a
    power of 1024, so the [float64] quotients are modelled exactly: a
    [float64] integer is the integer it denotes, and dividing it by a
    power of two only changes the exponent. *)

(** [float64(n)] for [0 <= n]: [n] itself up to 53 significant bits,
    beyond that the nearest value with 53 significant bits, ties to even. *)
Definition float64_of (n : Z) : Z :=
  let e := Z.log2 n - 52 in
  if e <=? 0 then n
  else
    let q := Z.shiftr n e in
    let r := n - Z.shiftl q e in
    let h := Z.shiftl 1 (e - 1) in
    let q := if r <? h then q
             else if h <? r then q + 1
             else if Z.even q then q else q + 1 in
    Z.shiftl q e.

(** Nearest integer to [num/den] ([0 <= num], [0 < den]), ties to even:
    the rounding [strconv] applies to the exact decimal expansion. *)
Definition roundHalfEven (num den : Z) : Z :=
  let q := num / den in
  let r := num mod den in
  if 2 * r <? den then q
  else if den <? 2 * r then q + 1
  else if Z.even q then q else q + 1.

(** Left padding with zeros up to [width] digits. *)
Fixpoint zeroPad (width : nat) (digits : string) : string :=
  match width with
  | O => digits
  | S w => if (String.length digits <? width)%nat
           then String "0" (zeroPad w digits) else digits
  end.

(** [fmt.Sprintf("%.<prec>f", x)] for the non-negative [x = num/den]. *)
Definition Sprintf_f (prec : nat) (num den : Z) : string :=
  let scale := 10 ^ Z.of_nat prec in
  let t := roundHalfEven (num * scale) den in
  match prec with
  | O => Sprintf_d t
  | S _ => Sprintf_d (t / scale) ++ "." ++ zeroPad prec (Sprintf_d (t mod scale))
  end.

(** [s[i]] on a Go string: a byte, or an index-out-of-range panic. *)
Definition byteAt (s : string) (i : Z) : outcome ascii :=
  if i <? 0 then Panicked
  else match String.get (Z.to_nat i) s with
       | Some c => Returned c
       | None => Panicked
       end.

(** ** The single-threaded walk *)

Definition countFile (st : scanState) : scanState :=
  {| fileTypes := fileTypes st; users := users st;
     totalFilesCount := Int64.add (totalFilesCount st) 1;
     totalCapacity := totalCapacity st;
     totalDirectoriesCount := totalDirectoriesCount st |}.

Definition addCapacity (size : Z) (st : scanState) : scanState :=
  {| fileTypes := fileTypes st; users := users st;
     totalFilesCount := totalFilesCount st;
     totalCapacity := Int64.add (totalCapacity st) size;
     totalDirectoriesCount := totalDirectoriesCount st |}.

Definition countDirectory (st : scanState) : scanState :=
  {| fileTypes := fileTypes st; users := users st;
     totalFilesCount := totalFilesCount st;
     totalCapacity := totalCapacity st;
     totalDirectoriesCount := Int64.add (totalDirectoriesCount st) 1 |}.

(** [&user.User{Uid: fmt.Sprintf("%d", uid)}]: every other field of the
    struct literal, [Username] included, is the empty string. *)
Definition fallbackOwner (info : FileInfo) : User :=
  {| User_Uid := Sprintf_d (Uid info); Username := "" |}.

(** [filepath.Walk] with a callback that never returns an error: the
    callback runs on every visit in turn; a panic ends the process. *)
Fixpoint Walk (fn : scanState -> visit -> outcome scanState)
    (st : scanState) (visits : list visit) : outcome scanState :=
  match visits with
  | [] => Returned st
  | v :: rest =>
      match fn st v with
      | Returned st' => Walk fn st' rest
      | Panicked => Panicked
      end
  end.

(** *** src/main.go *)
Module Main.

(** The extension-less branch (lines 238-302): [None] stands for the
    [return nil] of lines 246 and 262. *)
Definition sampleContent (verboseEnabled : bool) (v : visit) : option string :=
  match v_open v with
  | None =>
      let extension := no_extension_unknown_format in
      if verboseEnabled then Some extension else None
  | Some lines => Some (classify lines)
  end.

(** The callback of lines 217-441. *)
Definition walkFn (verboseEnabled : bool) (st : scanState) (v : visit)
  : outcome scanState :=
  if v_err v && negb verboseEnabled then Returned st
  else
    match v_info v with
    | None => Panicked
    | Some info =>
        if negb (IsDir info) then
          let st := countFile st in
          let extension := Ext (v_path v) in
          match (if String.eqb extension "" then sampleContent verboseEnabled v
                 else Some extension) with
          | None => Returned st
          | Some extension =>
              let size := Size info in
              let st := addCapacity size st in
              match v_lookup v with
              | Some owner =>
                  Returned (aggregate extension (Username owner) size st)
              | None =>
                  let owner := fallbackOwner info in
                  if verboseEnabled
                  then Returned (aggregate extension (Username owner) size st)
                  else Returned st
              end
          end
        else Returned (countDirectory st)
    end.

Definition scan (verboseEnabled : bool) (visits : list visit)
  : outcome scanState :=
  Walk (walkFn verboseEnabled) initialState visits.

Section HumanReadableSize.

(** [logUnit size] stands for
    [int64(math.Log(float64(size)) / math.Log(float64(unit)))], the
    one floating-point library call of the formatter. *)
Variable logUnit : Z -> Z.

(** [humanReadableSize] (lines 76-86); [math.Pow(1024, exp)] is the
    power of two [1024^exp]. *)
Definition humanReadableSize (size : Z) : outcome string :=
  if size <? 1024 then Returned (Sprintf_d size ++ " B")
  else
    let unit := 1024 in
    let exp := logUnit size in
    if exp <? 7 then
      match byteAt "KMGTPE" (exp - 1) with
      | Returned pre =>
          Returned (Sprintf_f 1 (float64_of size) (unit ^ exp)
                      ++ " " ++ String pre "iB")
      | Panicked => Panicked
      end
    else Returned (Sprintf_f 1 (float64_of size) (unit ^ 7)
                     ++ " " ++ String "Z" "B").

End HumanReadableSize.

End Main.

(** *** The variant with a logger (no early return) *)
Module Logged.

Definition sampleContent (v : visit) : string :=
  match v_open v with
  | None => no_extension_unknown_format
  | Some lines => classify lines
  end.

(** The callback; [verboseEnabled] only selects what is logged. *)
Definition walkFn (st : scanState) (v : visit) : outcome scanState :=
  match v_info v with
  | None => Panicked
  | Some info =>
      if negb (IsDir info) then
        let st := countFile st in
        let extension := Ext (v_path v) in
        let extension :=
          if String.eqb extension "" then sampleContent v else extension in
        let size := Size info in
        let st := addCapacity size st in
        let owner :=
          match v_lookup v with
          | Some owner => owner
          | None => fallbackOwner info
          end in
        Returned (aggregate extension (Username owner) size st)
      else Returned (countDirectory st)
  end.

Definition scan (visits : list visit) : outcome scanState :=
  Walk walkFn initialState visits.

(** [humanReadableSize] of this variant and of [Plain]. *)
Definition humanReadableSize (size : Z) : string :=
  if size <? 1024 then Sprintf_d size ++ " bytes"
  else if size <? 1024 * 1024 then
    Sprintf_f 2 (float64_of size) 1024 ++ " KiB"
  else if size <? 1024 * 1024 * 1024 then
    Sprintf_f 2 (float64_of size) (1024 * 1024) ++ " MiB"
  else Sprintf_f 2 (float64_of size) (1024 * 1024 * 1024) ++ " GiB".

End Logged.

(** *** The first variant (one command-line argument, no logger) *)
Module Plain.

(** Its callback is the one of [Logged] with the log calls removed. *)
Definition walkFn (st : scanState) (v : visit) : outcome scanState :=
  match v_info v with
  | None => Panicked
  | Some info =>
      if negb (IsDir info) then
        let st := countFile st in
        let extension := Ext (v_path v) in
        let extension :=
          if String.eqb extension "" then
            match v_open v with
            | None => no_extension_unknown_format
            | Some lines => classify lines
            end
          else extension in
        let size := Size info in
        let st := addCapacity size st in
        let owner :=
          match v_lookup v with
          | Some owner => owner
          | None => fallbackOwner info
          end in
        Returned (aggregate extension (Username owner) size st)
      else Returned (countDirectory st)
  end.

Definition scan (visits : list visit) : outcome scanState :=
  Walk walkFn initialState visits.

End Plain.

(** ** The worker-pool variants *)

(** Result of [os.Stat] in [processFile]. *)
Inductive statResult : Type :=
| StatOk (fileInfo : FileInfo)
| StatNotExist
| StatFailed.

(** One callback invocation of the pool variants: what Walk passes
    ([e_info], [e_err]) and what [processFile] later gets from
    [os.Lstat] ([None] on error) and [os.Stat] for the same path. *)
Record entry : Type := mkEntry {
  e_path : string;
  e_info : option FileInfo;
  e_err : bool;
  e_lstat : option FileInfo;
  e_stat : statResult
}.

(** The counters of [main] and the paths sent on the [files] channel,
    oldest first. *)
Record poolState : Type := mkPoolState {
  files : list entry;
  totalFileCount : Z;
  poolCapacity : Z;
  totalDirectories : Z
}.

Definition poolStart : poolState :=
  {| files := []; totalFileCount := 0; poolCapacity := 0; totalDirectories := 0 |}.

(** [files <- path]. *)
Definition send (e : entry) (st : poolState) : poolState :=
  {| files := files st ++ [e]; totalFileCount := totalFileCount st;
     poolCapacity := poolCapacity st; totalDirectories := totalDirectories st |}.

(** [totalDirectories++]. *)
Definition countDir (st : poolState) : poolState :=
  {| files := files st; totalFileCount := totalFileCount st;
     poolCapacity := poolCapacity st;
     totalDirectories := Uint64.add (totalDirectories st) 1 |}.

(** [processFile]: the size and whether the returned error is non-nil. *)
Definition processFile (file : entry) : Z * bool :=
  let stat :=
    match e_stat file with
    | StatNotExist => (0, false)
    | StatFailed => (0, true)
    | StatOk fileInfo => (Uint64.wrap (Size fileInfo), false)
    end in
  match e_lstat file with
  | Some fileInfo => if IsSymlink fileInfo then (0, false) else stat
  | None => stat
  end.

(** Body of a worker's [for file := range files], run from the receive
    to the second update with no other worker in between: the error of
    [processFile] is discarded and both counters are updated. *)
Definition work (st : poolState) (file : entry) : poolState :=
  let '(size, _) := processFile file in
  {| files := files st;
     totalFileCount := Uint64.add (totalFileCount st) 1;
     poolCapacity := Uint64.add (poolCapacity st) size;
     totalDirectories := totalDirectories st |}.

(** Where a worker goroutine stands in its loop
    [for file := range files { size, _ := processFile(file);
       totalFileCount++; totalCapacity += size }].
    The two counters are plain variables shared by all workers, with no
    lock and no atomic: each update is a read followed by a write (each
    taken as one indivisible access), and another worker can run in
    between. *)
Inductive worker : Type :=
| Receiving
| Processed (size : Z)
| CountRead (size count : Z)
| CountWritten (size : Z)
| CapacityRead (size capacity : Z).

(** One step of one worker: receive the oldest path and call
    [processFile]; read [totalFileCount]; write it back plus one; read
    [totalCapacity]; write it back plus the size.  On the closed, empty
    channel the worker is done and no longer moves. *)
Definition workerStep (w : worker) (st : poolState) : worker * poolState :=
  match w with
  | Receiving =>
      match files st with
      | [] => (Receiving, st)
      | file :: rest =>
          (Processed (fst (processFile file)),
           {| files := rest; totalFileCount := totalFileCount st;
              poolCapacity := poolCapacity st;
              totalDirectories := totalDirectories st |})
      end
  | Processed size => (CountRead size (totalFileCount st), st)
  | CountRead size count =>
      (CountWritten size,
       {| files := files st; totalFileCount := Uint64.add count 1;
          poolCapacity := poolCapacity st;
          totalDirectories := totalDirectories st |})
  | CountWritten size => (CapacityRead size (poolCapacity st), st)
  | CapacityRead size capacity =>
      (Receiving,
       {| files := files st; totalFileCount := totalFileCount st;
          poolCapacity := Uint64.add capacity size;
          totalDirectories := totalDirectories st |})
  end.

(** The [i]-th worker takes a step; an index past the last worker moves
    nothing. *)
Fixpoint stepAt (i : nat) (ws : list worker) (st : poolState) {struct ws}
  : list worker * poolState :=
  match ws with
  | [] => ([], st)
  | w :: rest =>
      match i with
      | O => let '(w', st') := workerStep w st in (w' :: rest, st')
      | S j => let '(rest', st') := stepAt j rest st in (w :: rest', st')
      end
  end.

(** The workers move in the order the scheduler picks. *)
Fixpoint runSchedule (schedule : list nat) (ws : list worker) (st : poolState)
  : list worker * poolState :=
  match schedule with
  | [] => (ws, st)
  | i :: later => let '(ws', st') := stepAt i ws st in runSchedule later ws' st'
  end.

(** A worker goes on undisturbed up to its next receive (four steps at
    most). *)
Fixpoint untilReceive (fuel : nat) (w : worker) (st : poolState) : poolState :=
  match w with
  | Receiving => st
  | _ =>
      match fuel with
      | O => st
      | S fuel' => let '(w', st') := workerStep w st in untilReceive fuel' w' st'
      end
  end.

(** A worker runs alone until the channel is empty: it ends the
    iteration it is in and then takes every path that is left, [work]
    being a whole iteration. *)
Definition runAlone (w : worker) (st : poolState) : poolState :=
  let st' := untilReceive 4 w st in
  fold_left work (files st')
    {| files := []; totalFileCount := totalFileCount st';
       poolCapacity := poolCapacity st';
       totalDirectories := totalDirectories st' |}.

(** The workers run to the end one after the other. *)
Definition finishAll (ws : list worker) (st : poolState) : poolState :=
  fold_left (fun st w => runAlone w st) ws st.

(** The [workers] goroutines drain the channel and [wg.Wait()] returns.
    [schedule] is the interleaving the run-time scheduler happens to
    pick, one worker index per step; when it is used up the workers run
    to the end one after the other.  The walker only sends paths and
    counts directories, the workers only receive paths and update the
    other two counters, so the paths are all put on the channel first:
    the workers receive them in the same order either way. *)
Definition drain (workers : nat) (schedule : list nat) (st : poolState)
  : poolState :=
  let '(ws, st') := runSchedule schedule (repeat Receiving workers) st in
  finishAll ws st'.

(** The channel drained by a single goroutine, one path after the
    other: what the workers would compute if no update were lost. *)
Definition drainInTurn (st : poolState) : poolState :=
  fold_left work (files st)
    {| files := []; totalFileCount := totalFileCount st;
       poolCapacity := poolCapacity st;
       totalDirectories := totalDirectories st |}.

(** A worker that is between two iterations. *)
Definition waiting (w : worker) : bool :=
  match w with Receiving => true | _ => false end.

(** What a Walk callback asks of [filepath.Walk]. *)
Inductive walkAction : Type :=
| Continue
| SkipDir.

(** [filepath.Walk] over the visits it would make if nothing were skipped:
    once the callback has answered [SkipDir] on a directory, the visits
    below that directory are not made. *)
Fixpoint WalkPool (fn : poolState -> entry -> outcome (walkAction * poolState))
    (skipped : list string) (st : poolState) (entries : list entry)
  : outcome poolState :=
  match entries with
  | [] => Returned st
  | e :: rest =>
      if existsb (fun dir => String.prefix (dir ++ "/") (e_path e)) skipped
      then WalkPool fn skipped st rest
      else
        match fn st e with
        | Panicked => Panicked
        | Returned (Continue, st') => WalkPool fn skipped st' rest
        | Returned (SkipDir, st') => WalkPool fn (e_path e :: skipped) st' rest
        end
  end.

(** The loop of [formatSize]:
    [for n := size / unit; n >= unit; n /= unit { div *= unit; exp++ }].
    Returns the final [n], [div] and [exp]; [fuel] bounds the number of
    iterations. *)
Fixpoint formatSizeLoop (fuel : nat) (n div exp : Z) : Z * Z * Z :=
  match fuel with
  | O => (n, div, exp)
  | S fuel' =>
      if n >=? 1024
      then formatSizeLoop fuel' (n / 1024) (Int64.mul div 1024) (exp + 1)
      else (n, div, exp)
  end.

(** [formatSize] (both pool variants).  A [uint64] loses ten bits per
    iteration, so seven iterations are never exhausted. *)
Definition formatSize (size : Z) : outcome string :=
  let unit := 1024 in
  if size <? unit then Returned (Sprintf_d size ++ " B")
  else
    let '(_, div, exp) := formatSizeLoop 7 (size / unit) unit 0 in
    match byteAt "KMGTPE" exp with
    | Returned c =>
        Returned (Sprintf_f 1 (float64_of size) (float64_of div)
                    ++ " " ++ String c "iB")
    | Panicked => Panicked
    end.

(** *** The pool variant with the guarded average *)
Module Pool.

(** The Walk callback: an error is reported and the entry left alone. *)
Definition walkFn (st : poolState) (e : entry) : outcome (walkAction * poolState) :=
  if e_err e then Returned (Continue, st)
  else
    match e_info e with
    | None => Panicked
    | Some info =>
        if negb (IsDir info) then Returned (Continue, send e st)
        else Returned (Continue, countDir st)
    end.

(** The walker goroutine and the [workers] worker goroutines (at least
    one, see [clampWorkers]) under the interleaving [schedule]: a panic
    of the walker ends the process, otherwise every path it sends is
    received by some worker. *)
Definition scan (workers : nat) (schedule : list nat) (entries : list entry)
  : outcome poolState :=
  match WalkPool walkFn [] poolStart entries with
  | Returned st => Returned (drain workers schedule st)
  | Panicked => Panicked
  end.

(** "calculate the average file size and make sure it's no division by
    zero". *)
Definition avgFileSize (totalCapacity totalFileCount : Z) : Z :=
  if totalFileCount >? 0 then totalCapacity / totalFileCount else 0.

(** The last argument of the closing [Printf]. *)
Definition averageReport (st : poolState) : outcome string :=
  formatSize (avgFileSize (poolCapacity st) (totalFileCount st)).

End Pool.

(** *** The pool variant that skips /proc and /run *)
Module PoolProc.

(** The Walk callback: [err] is not looked at. *)
Definition walkFn (st : poolState) (e : entry) : outcome (walkAction * poolState) :=
  match e_info e with
  | None => Panicked
  | Some info =>
      if IsDir info && String.eqb (e_path e) "/proc" then Returned (SkipDir, st)
      else if IsDir info && String.eqb (e_path e) "/run" then Returned (SkipDir, st)
      else if negb (IsDir info) then Returned (Continue, send e st)
      else Returned (Continue, countDir st)
  end.

Definition scan (workers : nat) (schedule : list nat) (entries : list entry)
  : outcome poolState :=
  match WalkPool walkFn [] poolStart entries with
  | Returned st => Returned (drain workers schedule st)
  | Panicked => Panicked
  end.

(** [totalCapacity/totalFileCount]: Go's integer division panics on a
    zero divisor. *)
Definition divide (totalCapacity totalFileCount : Z) : outcome Z :=
  if totalFileCount =? 0 then Panicked
  else Returned (totalCapacity / totalFileCount).

(** The last argument of the closing [Printf]. *)
Definition averageReport (st : poolState) : outcome string :=
  match divide (poolCapacity st) (totalFileCount st) with
  | Returned avg => formatSize avg
  | Panicked => Panicked
  end.

End PoolProc.

(** ** Properties of the groupings *)

(** The aggregation states: the empty one, and whatever the callbacks can
    do to a state (count, add a size, fold in a file of any extension,
    owner and size). *)
Inductive reachable : scanState -> Prop :=
| reach_initial : reachable initialState
| reach_aggregate st e o s : reachable st -> reachable (aggregate e o s st)
| reach_countFile st : reachable st -> reachable (countFile st)
| reach_addCapacity st s : reachable st -> reachable (addCapacity s st)
| reach_countDirectory st : reachable st -> reachable (countDirectory st).

(** Key uniqueness: no label twice in [fileTypes], no name twice in
    [users], and no nested key twice inside one group. *)
Definition keys_unique (st : scanState) : Prop :=
  NoDup (map ft_extension (fileTypes st)) /\
  NoDup (map ui_name (users st)) /\
  Forall (fun t => NoDup (map ftu_name (ft_users t))) (fileTypes st) /\
  Forall (fun u => NoDup (map uft_extension (ui_filetypes u))) (users st).

(** The size and count stored for user [u] inside extension [e], found
    the way the loops find them (first match). *)
Definition extensionSide (fts : list fileType) (e u : string) : option (Z * Z) :=
  match find (fun t => String.eqb (ft_extension t) e) fts with
  | None => None
  | Some t =>
      match find (fun x => String.eqb (ftu_name x) u) (ft_users t) with
      | None => None
      | Some x => Some (ftu_size x, ftu_count x)
      end
  end.

(** The size and count stored for extension [e] inside user [u]. *)
Definition userSide (us : list userInfo) (u e : string) : option (Z * Z) :=
  match find (fun x => String.eqb (ui_name x) u) us with
  | None => None
  | Some x =>
      match find (fun f => String.eqb (uft_extension f) e) (ui_filetypes x) with
      | None => None
      | Some f => Some (uft_size f, uft_count f)
      end
  end.

Definition cross_consistent (st : scanState) : Prop :=
  forall e u, extensionSide (fileTypes st) e u = userSide (users st) u e.

(** What one more file of [size] bytes does to a stored (size, count). *)
Definition bump (size : Z) (entry : option (Z * Z)) : Z * Z :=
  match entry with
  | Some (s, c) => (Int64.add s size, Int64.add c 1)
  | None => (size, 1)
  end.

(** The four sums of the groupings against the run totals. *)
Definition totals_consistent (st : scanState) : Prop :=
  sum64 (map ft_count (fileTypes st)) = totalFilesCount st /\
  sum64 (map ft_size (fileTypes st)) = totalCapacity st /\
  sum64 (map ui_count (users st)) = totalFilesCount st /\
  sum64 (map ui_size (users st)) = totalCapacity st.

(** Every count stored in the groupings, nested ones included, lies
    between 1 and [n]. *)
Definition counts_within (n : Z) (st : scanState) : Prop :=
  Forall (fun t => 1 <= ft_count t <= n /\
                   Forall (fun x => 1 <= ftu_count x <= n) (ft_users t))
         (fileTypes st) /\
  Forall (fun u => 1 <= ui_count u <= n /\
                   Forall (fun f => 1 <= uft_count f <= n) (ui_filetypes u))
         (users st).

(** The last line the classifier looks at, and what looking at a line
    does to a flag that is still clear. *)
Definition lastExamined (lines : list line) : line := last (firstn 10 lines) [].
Definition lineSetsFlag (l : line) : bool := scanRunes false l.

(** The mathematical sum, for stating what [sum64] computes. *)
Definition sumZ (l : list Z) : Z := fold_right Z.add 0 l.

(** Lookup-or-create as one operation: the loop, then the append. *)
Definition upsert {A : Type} (hit : A -> bool) (upd : A -> A) (new : A)
    (l : list A) : list A :=
  let '(l', found) := update_first hit upd l in
  if found then l' else l' ++ [new].

(** What the walker of [Pool] does with an entry: hand it to the workers,
    count it as a directory, or neither; it dies on a nil [info] that
    comes without an error. *)
Definition poolSends (e : entry) : bool :=
  negb (e_err e) &&
  match e_info e with Some info => negb (IsDir info) | None => false end.

Definition poolCountsDir (e : entry) : bool :=
  negb (e_err e) &&
  match e_info e with Some info => IsDir info | None => false end.

Definition poolSurvives (e : entry) : bool :=
  e_err e || match e_info e with Some _ => true | None => false end.

(** ** The worker count of the pool variants *)

(** The first pool variant: [if workers < 1 { workers = 1 }], then
    [if workers > runtime.NumCPU()*2 { workers = runtime.NumCPU() * 2 }];
    [numCPU] stands for [runtime.NumCPU()], [int] is 64 bits wide. *)
Definition clampWorkers (numCPU workers : Z) : Z :=
  let workers := if workers <? 1 then 1 else workers in
  if workers >? Int64.mul numCPU 2 then Int64.mul numCPU 2 else workers.

(** The variant that skips /proc: [if workers < 2 { workers = 2 }], then
    [if workers > runtime.NumCPU() { workers = runtime.NumCPU() }]. *)
Definition clampWorkersProc (numCPU workers : Z) : Z :=
  let workers := if workers <? 2 then 2 else workers in
  if workers >? numCPU then numCPU else workers.

(** ** Further notions used in the statements *)

(** The size and count stored for a whole extension, and for a whole
    user (first match, as the loops find them). *)
Definition typeTotals (fts : list fileType) (e : string) : option (Z * Z) :=
  match find (fun t => String.eqb (ft_extension t) e) fts with
  | None => None
  | Some t => Some (ft_size t, ft_count t)
  end.

Definition userTotals (us : list userInfo) (u : string) : option (Z * Z) :=
  match find (fun x => String.eqb (ui_name x) u) us with
  | None => None
  | Some x => Some (ui_size x, ui_count x)
  end.

(** Inside every group the breakdown adds up to the group. *)
Definition nested_consistent (st : scanState) : Prop :=
  Forall (fun t =>
            sum64 (map ftu_count (ft_users t)) = Int64.wrap (ft_count t) /\
            sum64 (map ftu_size (ft_users t)) = Int64.wrap (ft_size t))
         (fileTypes st) /\
  Forall (fun u =>
            sum64 (map uft_count (ui_filetypes u)) = Int64.wrap (ui_count u) /\
            sum64 (map uft_size (ui_filetypes u)) = Int64.wrap (ui_size u))
         (users st).

(** What a visit is to the single-threaded callbacks. *)
Definition visitIsFile (v : visit) : bool :=
  match v_info v with Some info => negb (IsDir info) | None => false end.

Definition visitIsDir (v : visit) : bool :=
  match v_info v with Some info => IsDir info | None => false end.

Definition visitSize (v : visit) : Z :=
  match v_info v with Some info => Size info | None => 0 end.

(** A visit on which nothing fails: no walk error, an [info], and for a
    file a successful owner lookup and, when it has no extension, a
    successful [os.Open]. *)
Definition cleanVisit (v : visit) : bool :=
  negb (v_err v) &&
  match v_info v with
  | None => false
  | Some info =>
      IsDir info ||
      (match v_lookup v with Some _ => true | None => false end &&
       (negb (String.eqb (Ext (v_path v)) "") ||
        match v_open v with Some _ => true | None => false end))
  end.

(** The labels a group can carry: a real extension starts with a dot; the
    others are the three markers and the empty string. *)
Definition startsWithDot (s : string) : Prop := exists rest, s = String "." rest.

Definition isLabel (s : string) : Prop :=
  startsWithDot s \/ s = "" \/ s = no_extension_unknown_format \/
  s = no_extension_binary \/ s = no_extension_text.

(** Every label of the groupings, nested ones included, is one of these. *)
Definition labels_ok (st : scanState) : Prop :=
  Forall (fun t => isLabel (ft_extension t)) (fileTypes st) /\
  Forall (fun u => Forall (fun f => isLabel (uft_extension f)) (ui_filetypes u))
         (users st).

(** Whether src/main.go files a visit under a group: the entry is a
    file and the callback does not return early on it. *)
Definition grouped (verboseEnabled : bool) (v : visit) : bool :=
  visitIsFile v && (verboseEnabled || cleanVisit v).

(** What the content of a file says when its name has no extension. *)
Definition contentLabel (v : visit) : string :=
  match v_open v with
  | None => no_extension_unknown_format
  | Some lines => classify lines
  end.

(** The (size, count) that a list of files adds up to, one file at a
    time as the aggregator does. *)
Definition tally (start : option (Z * Z)) (l : list visit) : option (Z * Z) :=
  fold_left (fun entry v => Some (bump (visitSize v) entry)) l start.

(** ** Sample inputs *)

Definition regular (size uid : Z) : FileInfo :=
  {| IsDir := false; IsSymlink := false; Size := size; Uid := uid |}.
Definition directory (uid : Z) : FileInfo :=
  {| IsDir := true; IsSymlink := false; Size := 4096; Uid := uid |}.
Definition symlink (size uid : Z) : FileInfo :=
  {| IsDir := false; IsSymlink := true; Size := size; Uid := uid |}.

Definition bob : User := {| User_Uid := "1000"; Username := "bob" |}.

(** A file without extension that cannot be opened. *)
Definition unreadable : visit :=
  {| v_path := "/data/README"; v_info := Some (regular 10 1000); v_err := false;
     v_open := None; v_lookup := Some bob |}.

(** A file whose owner id 1234 has no entry in the user database. *)
Definition orphan : visit :=
  {| v_path := "/data/a.txt"; v_info := Some (regular 10 1234); v_err := false;
     v_open := None; v_lookup := None |}.

(** An ordinary file. *)
Definition notes : visit :=
  {| v_path := "/data/notes.txt"; v_info := Some (regular 7 1000); v_err := false;
     v_open := None; v_lookup := Some bob |}.

(** An entry whose Lstat failed: Walk passes a nil info and the error. *)
Definition vanished : visit :=
  {| v_path := "/data/gone"; v_info := None; v_err := true;
     v_open := None; v_lookup := None |}.

(** A directory that cannot be read: Walk passes its info and the error. *)
Definition locked : visit :=
  {| v_path := "/data/private"; v_info := Some (directory 0); v_err := true;
     v_open := None; v_lookup := None |}.

(** The same situations for the pool variants. *)
Definition vanishedEntry : entry :=
  {| e_path := "/data/gone"; e_info := None; e_err := true;
     e_lstat := None; e_stat := StatNotExist |}.
Definition fileEntry : entry :=
  {| e_path := "/data/notes.txt"; e_info := Some (regular 7 1000); e_err := false;
     e_lstat := Some (regular 7 1000); e_stat := StatOk (regular 7 1000) |}.
Definition dirEntry : entry :=
  {| e_path := "/data"; e_info := Some (directory 0); e_err := false;
     e_lstat := Some (directory 0); e_stat := StatOk (directory 0) |}.
Definition linkEntry : entry :=
  {| e_path := "/data/latest"; e_info := Some (symlink 9 1000); e_err := false;
     e_lstat := Some (symlink 9 1000); e_stat := StatOk (regular 7 1000) |}.

(** The directory /proc and an entry below it that Walk could not Lstat. *)
Definition procEntry : entry :=
  {| e_path := "/proc"; e_info := Some (directory 0); e_err := false;
     e_lstat := Some (directory 0); e_stat := StatOk (directory 0) |}.
Definition procChild : entry :=
  {| e_path := "/proc/1"; e_info := None; e_err := true;
     e_lstat := None; e_stat := StatNotExist |}.

(** A small walk: a directory, two files of bob, a file of an unknown
    owner and a file that cannot be opened, and where it ends in verbose
    mode. *)
Definition sampleVisits : list visit :=
  [ {| v_path := "/data"; v_info := Some (directory 0); v_err := false;
       v_open := None; v_lookup := None |};
    notes; orphan; unreadable; notes ].

Definition sampleState : scanState :=
  Eval vm_compute in
    match Main.scan true sampleVisits with
    | Returned st => st
    | Panicked => initialState
    end.

(** * Proofs *)

(** ** Arithmetic modulo 2^64 *)

Lemma Int64_wrap_range z : Int64.in_range (Int64.wrap z).
Proof.
  unfold Int64.in_range, Int64.wrap, Int64.modulus, Int64.half.
  pose proof (Z.mod_pos_bound (z + 2 ^ 63) (2 ^ 64)) as H. lia.
Qed.

Lemma Int64_wrap_small z : Int64.in_range z -> Int64.wrap z = z.
Proof.
  unfold Int64.in_range, Int64.wrap, Int64.modulus, Int64.half. intros H.
  rewrite Z.mod_small; lia.
Qed.

Lemma Int64_wrap_add_l a b : Int64.wrap (Int64.wrap a + b) = Int64.wrap (a + b).
Proof.
  unfold Int64.wrap, Int64.modulus, Int64.half.
  replace ((a + 2 ^ 63) mod 2 ^ 64 - 2 ^ 63 + b + 2 ^ 63)
    with ((a + 2 ^ 63) mod 2 ^ 64 + b) by lia.
  rewrite Zplus_mod_idemp_l. f_equal. f_equal. lia.
Qed.

Lemma Int64_wrap_add_r a b : Int64.wrap (a + Int64.wrap b) = Int64.wrap (a + b).
Proof. rewrite (Z.add_comm a), Int64_wrap_add_l. f_equal. lia. Qed.

Lemma Int64_wrap_idem z : Int64.wrap (Int64.wrap z) = Int64.wrap z.
Proof. apply Int64_wrap_small, Int64_wrap_range. Qed.

(** The running accumulator is the wrapped mathematical sum. *)
Lemma fold_add_wrap l : forall acc,
  fold_left Int64.add l (Int64.wrap acc) = Int64.wrap (acc + sumZ l).
Proof.
  induction l as [|x l IH]; intros acc; simpl.
  - f_equal. lia.
  - unfold Int64.add at 2. rewrite Int64_wrap_add_l, IH. f_equal. lia.
Qed.

Lemma sum64_wrap l : sum64 l = Int64.wrap (sumZ l).
Proof.
  unfold sum64. change 0 with (Int64.wrap 0) at 1.
  rewrite fold_add_wrap. reflexivity.
Qed.

Lemma sumZ_app l1 l2 : sumZ (l1 ++ l2) = sumZ l1 + sumZ l2.
Proof. induction l1 as [|x l1 IH]; simpl; lia. Qed.

(** ** The lookup-or-create loops *)

Section UpdateFirst.
Context {A : Type}.
Variable key : A -> string.
Variable k : string.
Variables (upd : A -> A) (new : A).
Hypothesis upd_key : forall x, key (upd x) = key x.
Hypothesis new_key : key new = k.

(** The loops test [key(l[i]) == k]. *)

Lemma update_first_found l :
  snd (update_first (fun y => String.eqb (key y) k) upd l) =
  existsb (fun y => String.eqb (key y) k) l.
Proof.
  induction l as [|x l IH]; simpl; [reflexivity|].
  destruct (String.eqb (key x) k); simpl; [reflexivity|].
  destruct (update_first _ upd l); simpl in *. exact IH.
Qed.

Lemma update_first_keys l :
  map key (fst (update_first (fun y => String.eqb (key y) k) upd l)) =
  map key l.
Proof.
  induction l as [|x l IH]; simpl; [reflexivity|].
  destruct (String.eqb (key x) k); simpl; [now rewrite upd_key|].
  destruct (update_first _ upd l); simpl in *. now rewrite IH.
Qed.

Lemma existsb_hit_In l :
  existsb (fun y => String.eqb (key y) k) l = true <-> In k (map key l).
Proof.
  rewrite existsb_exists, in_map_iff.
  split; intros [x [H1 H2]]; exists x.
  - apply String.eqb_eq in H2. tauto.
  - rewrite H1, String.eqb_refl. tauto.
Qed.

Lemma upsert_keys l :
  map key (upsert (fun y => String.eqb (key y) k) upd new l) =
    if existsb (fun y => String.eqb (key y) k) l
    then map key l else (map key l ++ [k])%list.
Proof.
  unfold upsert.
  pose proof (update_first_found l) as Hf.
  pose proof (update_first_keys l) as Hk.
  destruct (update_first _ upd l) as [l' found]; simpl in *. subst found.
  destruct (existsb _ l); [exact Hk|].
  rewrite map_app, Hk. simpl. now rewrite new_key.
Qed.

Lemma upsert_NoDup l :
  NoDup (map key l) ->
  NoDup (map key (upsert (fun y => String.eqb (key y) k) upd new l)).
Proof.
  intros Hnd. rewrite upsert_keys.
  destruct (existsb _ l) eqn:E; [exact Hnd|].
  apply NoDup_app; [exact Hnd | repeat constructor; simpl; tauto |].
  intros x Hx [Hk|[]]. subst x.
  apply existsb_hit_In in Hx. congruence.
Qed.

Lemma upsert_Forall (P : A -> Prop) l :
  (forall x, P x -> P (upd x)) -> P new -> Forall P l ->
  Forall P (upsert (fun y => String.eqb (key y) k) upd new l).
Proof.
  intros Hupd Hnew. unfold upsert.
  induction l as [|x l IH]; simpl; intros Hall.
  - repeat constructor. exact Hnew.
  - apply Forall_cons_iff in Hall. destruct Hall as [Hx Hl].
    destruct (String.eqb (key x) k).
    + constructor; auto.
    + specialize (IH Hl).
      destruct (update_first _ upd l) as [l' found].
      destruct found; simpl; constructor; auto.
Qed.

(** What a later first-match lookup finds after a lookup-or-create. *)
Lemma find_upsert_same l :
  find (fun y => String.eqb (key y) k)
       (upsert (fun y => String.eqb (key y) k) upd new l) =
  Some (match find (fun y => String.eqb (key y) k) l with
        | Some x => upd x
        | None => new
        end).
Proof.
  unfold upsert.
  induction l as [|x l IH]; simpl.
  - now rewrite new_key, String.eqb_refl.
  - destruct (String.eqb (key x) k) eqn:E; simpl.
    + now rewrite upd_key, E.
    + destruct (update_first _ upd l) as [l' found].
      destruct found; simpl; rewrite E; exact IH.
Qed.

Lemma find_upsert_other k' l :
  k' <> k ->
  find (fun x => String.eqb (key x) k')
       (upsert (fun y => String.eqb (key y) k) upd new l) =
  find (fun x => String.eqb (key x) k') l.
Proof.
  intros Hne. unfold upsert.
  induction l as [|x l IH]; simpl.
  - rewrite new_key.
    destruct (String.eqb_spec k k'); [congruence | reflexivity].
  - destruct (String.eqb (key x) k) eqn:E; simpl.
    + rewrite upd_key. apply String.eqb_eq in E.
      rewrite E. destruct (String.eqb_spec k k'); [congruence | reflexivity].
    + destruct (update_first _ upd l) as [l' found].
      destruct found; simpl;
        (destruct (String.eqb (key x) k'); [reflexivity | exact IH]).
Qed.

End UpdateFirst.

Section UpdateFirstSum.
Context {A : Type}.
Variables (hit : A -> bool) (upd : A -> A) (new : A).
Variable m : A -> Z.
Variable d : Z.
Hypothesis upd_m : forall x, m (upd x) = Int64.add (m x) d.
Hypothesis new_m : m new = d.

(** A lookup-or-create adds [d] to the wrapped sum of the measure [m]. *)
Lemma upsert_sum l :
  Int64.wrap (sumZ (map m (upsert hit upd new l))) =
  Int64.wrap (sumZ (map m l) + d).
Proof.
  unfold upsert.
  induction l as [|x l IH]; simpl.
  - rewrite new_m. f_equal. lia.
  - destruct (hit x); simpl.
    + rewrite upd_m. unfold Int64.add.
      rewrite Int64_wrap_add_l. f_equal. lia.
    + destruct (update_first hit upd l) as [l' found].
      assert (E : Int64.wrap (sumZ (map m (x :: (if found then l' else (l' ++ [new])%list))))
                  = Int64.wrap (m x + sumZ (map m l) + d)).
      { simpl. rewrite <- Int64_wrap_add_r, IH, Int64_wrap_add_r. f_equal. lia. }
      destruct found; exact E.
Qed.

Lemma upsert_sum64 l :
  sum64 (map m (upsert hit upd new l)) = Int64.add (sum64 (map m l)) d.
Proof.
  rewrite !sum64_wrap, upsert_sum. unfold Int64.add.
  now rewrite Int64_wrap_add_l.
Qed.

End UpdateFirstSum.

(** Each of the four loops is a lookup-or-create. *)
Lemma addUser_upsert owner size us :
  addUser owner size us =
  upsert (fun u => String.eqb (ftu_name u) owner)
    (fun u => {| ftu_name := ftu_name u;
                 ftu_size := Int64.add (ftu_size u) size;
                 ftu_count := Int64.add (ftu_count u) 1 |})
    {| ftu_name := owner; ftu_size := size; ftu_count := 1 |} us.
Proof. reflexivity. Qed.

Lemma addFileType_upsert extension owner size fts :
  addFileType extension owner size fts =
  upsert (fun t => String.eqb (ft_extension t) extension)
    (fun t => {| ft_extension := ft_extension t;
                 ft_size := Int64.add (ft_size t) size;
                 ft_count := Int64.add (ft_count t) 1;
                 ft_users := addUser owner size (ft_users t) |})
    {| ft_extension := extension; ft_size := size; ft_count := 1;
       ft_users := [ {| ftu_name := owner; ftu_size := size; ftu_count := 1 |} ] |}
    fts.
Proof. reflexivity. Qed.

Lemma addExtension_upsert extension size fs :
  addExtension extension size fs =
  upsert (fun f => String.eqb (uft_extension f) extension)
    (fun f => {| uft_extension := uft_extension f;
                 uft_size := Int64.add (uft_size f) size;
                 uft_count := Int64.add (uft_count f) 1 |})
    {| uft_extension := extension; uft_size := size; uft_count := 1 |} fs.
Proof. reflexivity. Qed.

Lemma addUserInfo_upsert extension owner size us :
  addUserInfo extension owner size us =
  upsert (fun u => String.eqb (ui_name u) owner)
    (fun u => {| ui_name := ui_name u;
                 ui_size := Int64.add (ui_size u) size;
                 ui_count := Int64.add (ui_count u) 1;
                 ui_filetypes := addExtension extension size (ui_filetypes u) |})
    {| ui_name := owner; ui_size := size; ui_count := 1;
       ui_filetypes := [ {| uft_extension := extension; uft_size := size;
                            uft_count := 1 |} ] |}
    us.
Proof. reflexivity. Qed.

(** ** Key uniqueness *)

Lemma NoDup_singleton {B : Type} (x : B) : NoDup [x].
Proof. constructor; [simpl; tauto | constructor]. Qed.

Lemma addUser_NoDup owner size us :
  NoDup (map ftu_name us) -> NoDup (map ftu_name (addUser owner size us)).
Proof. rewrite addUser_upsert. now apply upsert_NoDup. Qed.

Lemma addExtension_NoDup extension size fs :
  NoDup (map uft_extension fs) ->
  NoDup (map uft_extension (addExtension extension size fs)).
Proof. rewrite addExtension_upsert. now apply upsert_NoDup. Qed.

Lemma aggregate_keys_unique e o s st :
  keys_unique st -> keys_unique (aggregate e o s st).
Proof.
  intros (H1 & H2 & H3 & H4). unfold keys_unique, aggregate; simpl.
  rewrite addFileType_upsert, addUserInfo_upsert.
  repeat split.
  - now apply upsert_NoDup.
  - now apply upsert_NoDup.
  - apply upsert_Forall; simpl; auto using addUser_NoDup, NoDup_singleton.
  - apply upsert_Forall; simpl; auto using addExtension_NoDup, NoDup_singleton.
Qed.

Lemma initial_keys_unique : keys_unique initialState.
Proof. unfold keys_unique; simpl. repeat split; constructor. Qed.

Lemma reachable_keys_unique st : reachable st -> keys_unique st.
Proof.
  induction 1; auto using initial_keys_unique, aggregate_keys_unique.
Qed.

(** ** The walk *)

(** An invariant of the callback is an invariant of the walk. *)
Lemma Walk_invariant (P : scanState -> Prop) fn :
  (forall st v st', P st -> fn st v = Returned st' -> P st') ->
  forall visits st st', P st -> Walk fn st visits = Returned st' -> P st'.
Proof.
  intros Hfn. induction visits as [|v rest IH]; simpl; intros st st' HP HW.
  - now inversion HW; subst.
  - destruct (fn st v) as [st1|] eqn:E; [|discriminate].
    eapply IH; [eapply Hfn; eassumption | exact HW].
Qed.

Lemma Main_walkFn_reachable verboseEnabled st v st' :
  reachable st -> Main.walkFn verboseEnabled st v = Returned st' -> reachable st'.
Proof.
  intros Hr. unfold Main.walkFn.
  destruct (v_err v && negb verboseEnabled).
  { intros E; inversion E; subst; exact Hr. }
  destruct (v_info v) as [info|]; [|discriminate].
  destruct (negb (IsDir info)).
  - destruct (if String.eqb (Ext (v_path v)) "" then _ else _) as [extension|].
    + destruct (v_lookup v) as [owner|]; [|destruct verboseEnabled];
        intros E; inversion E; subst; repeat constructor; exact Hr.
    + intros E; inversion E; subst. constructor. exact Hr.
  - intros E; inversion E; subst. constructor. exact Hr.
Qed.

Lemma Main_scan_reachable verboseEnabled visits st :
  Main.scan verboseEnabled visits = Returned st -> reachable st.
Proof.
  unfold Main.scan. intros H.
  eapply (Walk_invariant reachable); [| apply reach_initial | exact H].
  intros. eapply Main_walkFn_reachable; eassumption.
Qed.

Lemma Logged_walkFn_reachable st v st' :
  reachable st -> Logged.walkFn st v = Returned st' -> reachable st'.
Proof.
  intros Hr. unfold Logged.walkFn.
  destruct (v_info v) as [info|]; [|discriminate].
  destruct (negb (IsDir info)); intros E; inversion E; subst;
    repeat constructor; exact Hr.
Qed.

Lemma Plain_walkFn_Logged st v : Plain.walkFn st v = Logged.walkFn st v.
Proof. reflexivity. Qed.

(** ** Cross-consistency of the two groupings *)

Lemma extensionSide_addFileType extension owner size fts e u :
  extensionSide (addFileType extension owner size fts) e u =
    if String.eqb e extension && String.eqb u owner
    then Some (bump size (extensionSide fts e u))
    else extensionSide fts e u.
Proof.
  unfold extensionSide. rewrite addFileType_upsert.
  destruct (String.eqb_spec e extension) as [->|Hne]; simpl.
  - rewrite (find_upsert_same ft_extension extension) by reflexivity.
    destruct (find _ fts) as [t|]; simpl.
    + rewrite addUser_upsert.
      destruct (String.eqb_spec u owner) as [->|Hu].
      * rewrite (find_upsert_same ftu_name owner) by reflexivity.
        destruct (find _ (ft_users t)); reflexivity.
      * rewrite (find_upsert_other ftu_name owner) by (reflexivity || exact Hu).
        reflexivity.
    + rewrite (String.eqb_sym owner u).
      destruct (String.eqb u owner); reflexivity.
  - rewrite (find_upsert_other ft_extension extension) by (reflexivity || exact Hne).
    reflexivity.
Qed.

Lemma userSide_addUserInfo extension owner size us u e :
  userSide (addUserInfo extension owner size us) u e =
    if String.eqb e extension && String.eqb u owner
    then Some (bump size (userSide us u e))
    else userSide us u e.
Proof.
  unfold userSide. rewrite addUserInfo_upsert.
  destruct (String.eqb_spec u owner) as [->|Hne]; simpl.
  - rewrite (find_upsert_same ui_name owner) by reflexivity.
    rewrite andb_true_r.
    destruct (find _ us) as [x|]; simpl.
    + rewrite addExtension_upsert.
      destruct (String.eqb_spec e extension) as [->|He].
      * rewrite (find_upsert_same uft_extension extension) by reflexivity.
        destruct (find _ (ui_filetypes x)); reflexivity.
      * rewrite (find_upsert_other uft_extension extension) by (reflexivity || exact He).
        reflexivity.
    + rewrite (String.eqb_sym extension e).
      destruct (String.eqb e extension); reflexivity.
  - rewrite andb_false_r.
    rewrite (find_upsert_other ui_name owner) by (reflexivity || exact Hne).
    reflexivity.
Qed.

Lemma aggregate_cross_consistent e o s st :
  cross_consistent st -> cross_consistent (aggregate e o s st).
Proof.
  intros H e' u'. unfold aggregate; simpl.
  rewrite extensionSide_addFileType, userSide_addUserInfo, H. reflexivity.
Qed.

Lemma reachable_cross_consistent st : reachable st -> cross_consistent st.
Proof.
  induction 1; auto using aggregate_cross_consistent.
  intros e u. reflexivity.
Qed.

(** With unique keys, the first match is the only entry with that key. *)
Lemma find_unique {A : Type} (key : A -> string) (l : list A) (x : A) :
  NoDup (map key l) -> In x l ->
  find (fun y => String.eqb (key y) (key x)) l = Some x.
Proof.
  induction l as [|y l IH]; simpl; intros Hnd Hin; [contradiction|].
  inversion Hnd as [|? ? Hy Hl]; subst.
  destruct Hin as [->|Hin].
  - now rewrite String.eqb_refl.
  - destruct (String.eqb_spec (key y) (key x)) as [E|_]; [|auto].
    exfalso. apply Hy. rewrite E. now apply in_map.
Qed.

Lemma find_key {A : Type} (key : A -> string) (k : string) (l : list A) (x : A) :
  find (fun y => String.eqb (key y) k) l = Some x -> In x l /\ key x = k.
Proof.
  intros H. apply find_some in H. destruct H as [H1 H2].
  apply String.eqb_eq in H2. tauto.
Qed.

(** The two directions of the cross check, entry by entry. *)
Lemma cross_entries_ext_to_user st t x :
  keys_unique st -> cross_consistent st ->
  In t (fileTypes st) -> In x (ft_users t) ->
  exists u f, In u (users st) /\ In f (ui_filetypes u) /\
    ui_name u = ftu_name x /\ uft_extension f = ft_extension t /\
    uft_size f = ftu_size x /\ uft_count f = ftu_count x.
Proof.
  intros (K1 & K2 & K3 & K4) HC Ht Hx.
  specialize (HC (ft_extension t) (ftu_name x)).
  unfold extensionSide, userSide in HC.
  rewrite (find_unique ft_extension _ t K1 Ht) in HC.
  rewrite Forall_forall in K3.
  rewrite (find_unique ftu_name _ x (K3 t Ht) Hx) in HC.
  destruct (find _ (users st)) as [u|] eqn:Eu; [|discriminate].
  destruct (find _ (ui_filetypes u)) as [f|] eqn:Ef; [|discriminate].
  apply find_key in Eu, Ef. inversion HC. exists u, f.
  repeat split; try tauto; congruence.
Qed.

Lemma cross_entries_user_to_ext st u f :
  keys_unique st -> cross_consistent st ->
  In u (users st) -> In f (ui_filetypes u) ->
  exists t x, In t (fileTypes st) /\ In x (ft_users t) /\
    ft_extension t = uft_extension f /\ ftu_name x = ui_name u /\
    ftu_size x = uft_size f /\ ftu_count x = uft_count f.
Proof.
  intros (K1 & K2 & K3 & K4) HC Hu Hf.
  specialize (HC (uft_extension f) (ui_name u)).
  unfold extensionSide, userSide in HC.
  rewrite (find_unique ui_name _ u K2 Hu) in HC.
  rewrite Forall_forall in K4.
  rewrite (find_unique uft_extension _ f (K4 u Hu) Hf) in HC.
  destruct (find _ (fileTypes st)) as [t|] eqn:Et; [|discriminate].
  destruct (find _ (ft_users t)) as [x|] eqn:Ex; [|discriminate].
  apply find_key in Et, Ex. inversion HC. exists t, x.
  repeat split; try tauto; congruence.
Qed.

(** C10. In every aggregation state reachable from the empty one, each
    extension label occurs in at most one [fileTypes] entry, each user
    name in at most one [users] entry, and inside every group each nested
    key occurs at most once; and every lookup-or-create update (any
    extension, owner and size) of a state with unique keys leaves the
    keys unique. *)
Theorem lookup_or_create_keeps_keys_unique st :
  (reachable st -> keys_unique st) /\
  (keys_unique st -> forall e o s, keys_unique (aggregate e o s st)).
Proof.
  split.
  - apply reachable_keys_unique.
  - intros H e o s. now apply aggregate_keys_unique.
Qed.

Lemma lookup_or_create_keeps_keys_unique_witness :
  reachable sampleState /\
  keys_unique sampleState /\
  keys_unique (aggregate ".txt" "alice" 3 sampleState).
Proof.
  assert (Hr : reachable sampleState).
  { apply (Main_scan_reachable true sampleVisits). vm_compute. reflexivity. }
  pose proof (proj1 (lookup_or_create_keeps_keys_unique sampleState) Hr) as Hk.
  split; [exact Hr|]. split; [exact Hk|].
  exact (proj2 (lookup_or_create_keeps_keys_unique sampleState) Hk ".txt" "alice" 3).
Defined.

(** C2. For every completed scan of src/main.go (any flag, any walk that
    does not die) and for every (extension, user) pair that appears in
    either grouping, also after the final sorts have reordered the
    groups: the size and count stored in the extension's per-user entry
    are those stored in the user's per-extension entry.  Both directions
    are given entry by entry, and once more through the first-match
    lookups of the loops. *)
Theorem cross_consistency verboseEnabled visits st sortedTypes sortedUsers :
  Main.scan verboseEnabled visits = Returned st ->
  Permutation (fileTypes st) sortedTypes ->
  Permutation (users st) sortedUsers ->
  (forall t x, In t sortedTypes -> In x (ft_users t) ->
     exists u f, In u sortedUsers /\ In f (ui_filetypes u) /\
       ui_name u = ftu_name x /\ uft_extension f = ft_extension t /\
       uft_size f = ftu_size x /\ uft_count f = ftu_count x) /\
  (forall u f, In u sortedUsers -> In f (ui_filetypes u) ->
     exists t x, In t sortedTypes /\ In x (ft_users t) /\
       ft_extension t = uft_extension f /\ ftu_name x = ui_name u /\
       ftu_size x = uft_size f /\ ftu_count x = uft_count f) /\
  (forall e u, extensionSide (fileTypes st) e u = userSide (users st) u e).
Proof.
  intros Hscan Pt Pu.
  apply Main_scan_reachable in Hscan.
  pose proof (reachable_keys_unique st Hscan) as HK.
  pose proof (reachable_cross_consistent st Hscan) as HC.
  repeat split.
  - intros t x Ht Hx.
    apply (Permutation_in _ (Permutation_sym Pt)) in Ht.
    destruct (cross_entries_ext_to_user st t x HK HC Ht Hx) as (u & f & Hu & H).
    exists u, f. split; [exact (Permutation_in _ Pu Hu) | exact H].
  - intros u f Hu Hf.
    apply (Permutation_in _ (Permutation_sym Pu)) in Hu.
    destruct (cross_entries_user_to_ext st u f HK HC Hu Hf) as (t & x & Ht & H).
    exists t, x. split; [exact (Permutation_in _ Pt Ht) | exact H].
  - exact HC.
Qed.

Lemma cross_consistency_witness :
  Main.scan true sampleVisits = Returned sampleState /\
  extensionSide (fileTypes sampleState) ".txt" "bob" = Some (14, 2) /\
  userSide (users sampleState) "bob" ".txt" = Some (14, 2).
Proof.
  assert (H : Main.scan true sampleVisits = Returned sampleState)
    by (vm_compute; reflexivity).
  split; [exact H|].
  rewrite <- (proj2 (proj2 (cross_consistency true sampleVisits sampleState _ _ H
                             (Permutation_refl _) (Permutation_refl _)))
                ".txt" "bob").
  split; vm_compute; reflexivity.
Defined.

(** ** Group sums against the run totals *)

(** The three steps every aggregated file goes through keep the four sums
    equal to the totals. *)
Lemma observed_file_totals e o size st :
  totals_consistent st ->
  totals_consistent (aggregate e o size (addCapacity size (countFile st))).
Proof.
  intros (H1 & H2 & H3 & H4). unfold totals_consistent; simpl.
  rewrite addFileType_upsert, addUserInfo_upsert.
  rewrite !(upsert_sum64 _ _ _ ft_count 1), !(upsert_sum64 _ _ _ ft_size size),
          !(upsert_sum64 _ _ _ ui_count 1), !(upsert_sum64 _ _ _ ui_size size)
    by reflexivity.
  rewrite H1, H2, H3, H4. repeat split.
Qed.

Lemma countDirectory_totals st :
  totals_consistent st -> totals_consistent (countDirectory st).
Proof. intros H; exact H. Qed.

(** The variant with a logger keeps them on every walk that returns. *)
Lemma Logged_scan_totals visits st :
  Logged.scan visits = Returned st -> totals_consistent st.
Proof.
  unfold Logged.scan. intros H.
  eapply (Walk_invariant totals_consistent); [| | exact H].
  - clear. intros st v st' HP. unfold Logged.walkFn.
    destruct (v_info v) as [info|]; [|discriminate].
    destruct (negb (IsDir info)); intros E; inversion E; subst.
    + now apply observed_file_totals.
    + exact HP.
  - unfold totals_consistent; simpl. repeat split.
Qed.

(** So does src/main.go when [-v] is given. *)
Lemma Main_verbose_scan_totals visits st :
  Main.scan true visits = Returned st -> totals_consistent st.
Proof.
  unfold Main.scan. intros H.
  eapply (Walk_invariant totals_consistent); [| | exact H].
  - clear. intros st v st' HP. unfold Main.walkFn, Main.sampleContent.
    rewrite andb_false_r.
    destruct (v_info v) as [info|]; [|discriminate].
    destruct (negb (IsDir info)).
    + destruct (String.eqb (Ext (v_path v)) ""); [destruct (v_open v)|];
        destruct (v_lookup v); intros E; inversion E; subst;
        now apply observed_file_totals.
    + intros E; inversion E; subst. exact HP.
  - unfold totals_consistent; simpl. repeat split.
Qed.

(** C1 (failing input). Without [-v], src/main.go returns from the
    callback after it has counted the file: a file without extension
    that cannot be opened is in [totalFilesCount] and in no group, and a
    file whose owner lookup fails is in [totalFilesCount] and
    [totalCapacity] and in no group.  Both scans complete, and the group
    sums differ from the run totals. *)
Theorem totals_diverge_without_verbose :
  (exists st, Main.scan false [unreadable] = Returned st /\
     totalFilesCount st = 1 /\
     sum64 (map ft_count (fileTypes st)) = 0 /\
     sum64 (map ui_count (users st)) = 0) /\
  (exists st, Main.scan false [orphan] = Returned st /\
     totalFilesCount st = 1 /\ totalCapacity st = 10 /\
     sum64 (map ft_count (fileTypes st)) = 0 /\
     sum64 (map ft_size (fileTypes st)) = 0 /\
     sum64 (map ui_count (users st)) = 0 /\
     sum64 (map ui_size (users st)) = 0).
Proof.
  split; eexists; (split; [vm_compute; reflexivity|]); vm_compute; repeat split.
Qed.

(** ** Files that cannot be opened *)

(** In the variant with a logger such a file is aggregated under the
    unknown-format label. *)
Lemma Logged_open_failure st v info :
  v_info v = Some info -> IsDir info = false ->
  Ext (v_path v) = "" -> v_open v = None ->
  exists owner,
    Logged.walkFn st v =
      Returned (aggregate no_extension_unknown_format owner (Size info)
                  (addCapacity (Size info) (countFile st))).
Proof.
  intros Hi Hd He Ho. unfold Logged.walkFn, Logged.sampleContent.
  rewrite Hi, Hd, He, Ho; simpl. eexists. reflexivity.
Qed.

(** So it is in src/main.go with [-v]. *)
Lemma Main_verbose_open_failure st v info :
  v_info v = Some info -> IsDir info = false ->
  Ext (v_path v) = "" -> v_open v = None ->
  exists owner,
    Main.walkFn true st v =
      Returned (aggregate no_extension_unknown_format owner (Size info)
                  (addCapacity (Size info) (countFile st))).
Proof.
  intros Hi Hd He Ho. unfold Main.walkFn, Main.sampleContent.
  rewrite Hi, Hd, He, Ho, andb_false_r; simpl.
  destruct (v_lookup v); eexists; reflexivity.
Qed.

(** Without [-v] the callback returns right after counting the file. *)
Lemma Main_quiet_open_failure st v info :
  v_err v = false -> v_info v = Some info -> IsDir info = false ->
  Ext (v_path v) = "" -> v_open v = None ->
  Main.walkFn false st v = Returned (countFile st).
Proof.
  intros Herr Hi Hd He Ho. unfold Main.walkFn, Main.sampleContent.
  rewrite Herr, Hi, Hd, He, Ho. reflexivity.
Qed.

(** C7 (failing input). src/main.go without [-v], one file without
    extension that cannot be opened: the scan completes, the file is
    counted, and it is dropped from the capacity and from both groupings.
    With [-v], and in the variant with a logger, the same file is
    aggregated under the unknown-format label. *)
Theorem unopened_file_dropped_without_verbose :
  (exists st, Main.scan false [unreadable] = Returned st /\
     totalFilesCount st = 1 /\ totalCapacity st = 0 /\
     fileTypes st = [] /\ users st = []) /\
  (exists st, Main.scan true [unreadable] = Returned st /\
     map ft_extension (fileTypes st) = [no_extension_unknown_format] /\
     map ft_count (fileTypes st) = [1] /\ map ui_name (users st) = ["bob"]) /\
  (exists st, Logged.scan [unreadable] = Returned st /\
     map ft_extension (fileTypes st) = [no_extension_unknown_format] /\
     map ft_count (fileTypes st) = [1] /\ map ui_name (users st) = ["bob"]).
Proof.
  repeat split; eexists; (split; [vm_compute; reflexivity|]);
    vm_compute; repeat split.
Qed.

(** ** Owner lookup failures *)

(** The owner built on a lookup failure has the uid in [Uid] and an empty
    [Username]; the groupings are keyed by [Username]. *)
Lemma fallbackOwner_fields info :
  User_Uid (fallbackOwner info) = Sprintf_d (Uid info) /\
  Username (fallbackOwner info) = "".
Proof. split; reflexivity. Qed.

Lemma Logged_lookup_failure st v info :
  v_info v = Some info -> IsDir info = false -> v_lookup v = None ->
  exists extension,
    Logged.walkFn st v =
      Returned (aggregate extension "" (Size info)
                  (addCapacity (Size info) (countFile st))).
Proof.
  intros Hi Hd Hl. unfold Logged.walkFn. rewrite Hi, Hd, Hl; simpl.
  eexists. reflexivity.
Qed.

(** C4 (failing input). A file owned by uid 1234, which has no entry in
    the user database.  The first variant and the one with a logger
    aggregate it under the empty user name, not under "1234"; src/main.go
    does the same with [-v] and, without [-v], counts the file and its
    size but aggregates nothing.  Every one of these scans completes. *)
Theorem unknown_owner_grouped_under_empty_name :
  Sprintf_d 1234 = "1234" /\
  (exists st, Plain.scan [orphan] = Returned st /\
     map ui_name (users st) = [""] /\
     map (fun t => map ftu_name (ft_users t)) (fileTypes st) = [[""]]) /\
  (exists st, Logged.scan [orphan] = Returned st /\
     map ui_name (users st) = [""]) /\
  (exists st, Main.scan true [orphan] = Returned st /\
     map ui_name (users st) = [""]) /\
  (exists st, Main.scan false [orphan] = Returned st /\
     users st = [] /\ fileTypes st = [] /\
     totalFilesCount st = 1 /\ totalCapacity st = 10).
Proof.
  split; [reflexivity|].
  repeat split; eexists; (split; [vm_compute; reflexivity|]);
    vm_compute; repeat split.
Qed.

(** ** The workers of the pool *)

Lemma Uint64_wrap_add_l a b : Uint64.wrap (Uint64.wrap a + b) = Uint64.wrap (a + b).
Proof. unfold Uint64.wrap. now rewrite Zplus_mod_idemp_l. Qed.

Lemma Uint64_wrap_small z : Uint64.in_range z -> Uint64.wrap z = z.
Proof. unfold Uint64.in_range, Uint64.wrap. intros H. now apply Z.mod_small. Qed.

Lemma Uint64_wrap_range z : Uint64.in_range (Uint64.wrap z).
Proof.
  unfold Uint64.in_range, Uint64.wrap, Uint64.modulus.
  apply Z.mod_pos_bound. lia.
Qed.

Lemma Uint64_in_range_0 : Uint64.in_range 0.
Proof. vm_compute. split; [discriminate | reflexivity]. Qed.

(** The workers: one file each for the count, its size for the capacity. *)
Lemma work_closed l : forall f a b d,
  fold_left work l
    {| files := f; totalFileCount := Uint64.wrap a;
       poolCapacity := Uint64.wrap b; totalDirectories := d |} =
  {| files := f;
     totalFileCount := Uint64.wrap (a + Z.of_nat (List.length l));
     poolCapacity := Uint64.wrap (b + sumZ (map (fun e => fst (processFile e)) l));
     totalDirectories := d |}.
Proof.
  induction l as [|e l IH]; intros f a b d; cbn [fold_left map sumZ fold_right List.length].
  - now rewrite !Z.add_0_r.
  - unfold work at 2. destruct (processFile e) as [size err]; cbn [fst files
      totalFileCount poolCapacity totalDirectories].
    unfold Uint64.add. rewrite !Uint64_wrap_add_l, IH.
    unfold sumZ. f_equal; f_equal; lia.
Qed.

(** The walk of a closed list of entries, evaluated. *)
Ltac pool_walk :=
  match goal with
  | |- context [WalkPool ?f ?skipped ?st ?entries] =>
      let r := eval vm_compute in (WalkPool f skipped st entries) in
      change (WalkPool f skipped st entries) with r; cbv beta iota
  end.

(** A whole iteration of a worker that is not disturbed is [work]. *)
Lemma work_is_one_iteration st file rest :
  files st = file :: rest ->
  (let '(w, st') := workerStep Receiving st in untilReceive 4 w st') =
  work {| files := rest; totalFileCount := totalFileCount st;
          poolCapacity := poolCapacity st;
          totalDirectories := totalDirectories st |} file.
Proof.
  intros Hf. unfold work. cbn [workerStep]. rewrite Hf.
  destruct (processFile file) as [size err]. reflexivity.
Qed.

(** A step of a worker does not change what the worker reaches when it
    goes on alone. *)
Lemma runAlone_step w st :
  runAlone (fst (workerStep w st)) (snd (workerStep w st)) = runAlone w st.
Proof.
  destruct w; try reflexivity.
  cbn [workerStep]. destruct (files st) as [|file rest] eqn:Hf; [reflexivity|].
  unfold runAlone. cbn [fst snd untilReceive workerStep files totalFileCount
    poolCapacity totalDirectories]. rewrite Hf. cbn [fold_left].
  f_equal. unfold work. destruct (processFile file) as [size err]. reflexivity.
Qed.

(** With one worker the scheduler has no choice to make. *)
Lemma stepAt_one i w st :
  exists w', stepAt i [w] st = ([w'], snd (stepAt i [w] st)) /\
             runAlone w' (snd (stepAt i [w] st)) = runAlone w st.
Proof.
  destruct i as [|j]; cbn [stepAt].
  - pose proof (runAlone_step w st) as H.
    destruct (workerStep w st) as [w' st']. exists w'. split; [reflexivity | exact H].
  - exists w. split; reflexivity.
Qed.

Lemma runSchedule_one schedule : forall w st,
  exists w' st', runSchedule schedule [w] st = ([w'], st') /\
                 runAlone w' st' = runAlone w st.
Proof.
  induction schedule as [|i later IH]; intros w st; cbn [runSchedule].
  - now exists w, st.
  - destruct (stepAt_one i w st) as (w1 & H1 & H2).
    rewrite H1. destruct (IH w1 (snd (stepAt i [w] st))) as (w' & st' & H3 & H4).
    exists w', st'. split; [exact H3 | congruence].
Qed.

(** One worker: whatever the schedule, the channel is drained one path
    after the other. *)
Lemma drain_one_worker schedule st :
  drain 1 schedule st = drainInTurn st.
Proof.
  unfold drain. cbn [repeat].
  destruct (runSchedule_one schedule Receiving st) as (w' & st' & H1 & H2).
  rewrite H1. unfold finishAll. cbn [fold_left]. exact H2.
Qed.

(** What every step keeps, the whole pool keeps. *)
Lemma untilReceive_preserves (P : poolState -> Prop) :
  (forall w st, P st -> P (snd (workerStep w st))) ->
  forall fuel w st, P st -> P (untilReceive fuel w st).
Proof.
  intros Hstep. induction fuel as [|fuel IH]; intros w st HP.
  - destruct w; exact HP.
  - destruct w; cbn [untilReceive]; try exact HP;
      match goal with
      | |- context [workerStep ?w st] =>
          pose proof (Hstep w st HP) as H; destruct (workerStep w st) as [w' st'];
          apply IH; exact H
      end.
Qed.

Lemma fold_work_preserves (P : poolState -> Prop) :
  (forall st file, P st -> P (work st file)) ->
  forall l st, P st -> P (fold_left work l st).
Proof.
  intros Hwork. induction l as [|file l IH]; intros st HP; cbn [fold_left].
  - exact HP.
  - apply IH, Hwork, HP.
Qed.

Lemma stepAt_preserves (P : poolState -> Prop) :
  (forall w st, P st -> P (snd (workerStep w st))) ->
  forall ws i st, P st -> P (snd (stepAt i ws st)).
Proof.
  intros Hstep. induction ws as [|w rest IH]; intros i st HP; cbn [stepAt].
  - exact HP.
  - destruct i as [|j].
    + pose proof (Hstep w st HP) as H. destruct (workerStep w st). exact H.
    + pose proof (IH j st HP) as H. destruct (stepAt j rest st). exact H.
Qed.

Lemma runSchedule_preserves (P : poolState -> Prop) :
  (forall w st, P st -> P (snd (workerStep w st))) ->
  forall schedule ws st, P st -> P (snd (runSchedule schedule ws st)).
Proof.
  intros Hstep. induction schedule as [|i later IH]; intros ws st HP;
    cbn [runSchedule].
  - exact HP.
  - pose proof (stepAt_preserves P Hstep ws i st HP) as H.
    destruct (stepAt i ws st) as [ws' st']. apply IH. exact H.
Qed.

Lemma drain_preserves (P : poolState -> Prop) :
  (forall w st, P st -> P (snd (workerStep w st))) ->
  (forall st file, P st -> P (work st file)) ->
  (forall st, P st ->
     P {| files := []; totalFileCount := totalFileCount st;
          poolCapacity := poolCapacity st;
          totalDirectories := totalDirectories st |}) ->
  forall workers schedule st, P st -> P (drain workers schedule st).
Proof.
  intros Hstep Hwork Hclear workers schedule st HP. unfold drain.
  pose proof (runSchedule_preserves P Hstep schedule (repeat Receiving workers)
                st HP) as H.
  destruct (runSchedule schedule (repeat Receiving workers) st) as [ws st'].
  cbn [snd] in H. clear HP. revert st' H. unfold finishAll.
  induction ws as [|w ws IH]; intros st' H; cbn [fold_left].
  - exact H.
  - apply IH. unfold runAlone.
    apply fold_work_preserves; [exact Hwork|]. apply Hclear.
    apply untilReceive_preserves; assumption.
Qed.

(** The workers never touch the directory count. *)
Lemma drain_directories workers schedule st :
  totalDirectories (drain workers schedule st) = totalDirectories st.
Proof.
  apply (drain_preserves (fun s => totalDirectories s = totalDirectories st)).
  - intros w s H. destruct w; cbn [workerStep]; try exact H.
    destruct (files s); exact H.
  - intros s file H. unfold work. destruct (processFile file). exact H.
  - intros s H. exact H.
  - reflexivity.
Qed.

(** Lost update or not, both counters stay 64-bit values. *)
Lemma drain_in_range workers schedule st :
  Uint64.in_range (totalFileCount st) -> Uint64.in_range (poolCapacity st) ->
  Uint64.in_range (totalFileCount (drain workers schedule st)) /\
  Uint64.in_range (poolCapacity (drain workers schedule st)).
Proof.
  intros H1 H2.
  apply (drain_preserves
           (fun s => Uint64.in_range (totalFileCount s) /\
                     Uint64.in_range (poolCapacity s))).
  - intros w s [Ha Hb]. destruct w; cbn [workerStep]; try (split; assumption).
    + destruct (files s); split; assumption.
    + split; [apply Uint64_wrap_range | exact Hb].
    + split; [exact Ha | apply Uint64_wrap_range].
  - intros s file [Ha Hb]. unfold work. destruct (processFile file).
    split; apply Uint64_wrap_range.
  - intros s H. exact H.
  - split; assumption.
Qed.

(** The channel is emptied. *)
Lemma runAlone_files w st : files (runAlone w st) = [].
Proof.
  unfold runAlone.
  apply (fold_work_preserves (fun s => files s = [])); [|reflexivity].
  intros s file H. unfold work. destruct (processFile file). exact H.
Qed.

Lemma drainInTurn_files st : files (drainInTurn st) = [].
Proof. apply (runAlone_files Receiving). Qed.

(** On an empty channel a worker between two iterations is done. *)
Lemma runAlone_done st : files st = [] -> runAlone Receiving st = st.
Proof.
  intros H. unfold runAlone. cbn [untilReceive]. rewrite H.
  destruct st; cbn in *. now subst.
Qed.

Lemma finishAll_done ws : forall st,
  files st = [] -> forallb waiting ws = true -> finishAll ws st = st.
Proof.
  unfold finishAll.
  induction ws as [|w ws IH]; intros st Hf Hw; cbn [fold_left forallb] in *.
  - reflexivity.
  - apply andb_prop in Hw. destruct Hw as [Hw Hws].
    destruct w; try discriminate. rewrite runAlone_done by exact Hf. now apply IH.
Qed.

Lemma stepAt_done ws : forall i st,
  files st = [] -> forallb waiting ws = true -> stepAt i ws st = (ws, st).
Proof.
  induction ws as [|w ws IH]; intros i st Hf Hw; cbn [stepAt forallb] in *.
  - reflexivity.
  - apply andb_prop in Hw. destruct Hw as [Hw Hws].
    destruct w; try discriminate. destruct i as [|j].
    + cbn [workerStep]. now rewrite Hf.
    + now rewrite IH.
Qed.

Lemma runSchedule_done schedule : forall ws st,
  files st = [] -> forallb waiting ws = true ->
  runSchedule schedule ws st = (ws, st).
Proof.
  induction schedule as [|i later IH]; intros ws st Hf Hw; cbn [runSchedule].
  - reflexivity.
  - rewrite stepAt_done by assumption. now apply IH.
Qed.

Lemma waiting_repeat n : forallb waiting (repeat Receiving n) = true.
Proof. induction n as [|n IH]; cbn [repeat forallb waiting andb]; auto. Qed.

(** Nothing sent: the workers leave the counters alone. *)
Lemma drain_empty workers schedule st :
  files st = [] -> drain workers schedule st = st.
Proof.
  intros Hf. unfold drain.
  rewrite runSchedule_done by (auto using waiting_repeat).
  apply finishAll_done; auto using waiting_repeat.
Qed.

(** Idle workers, the first of them taking everything. *)
Lemma finishAll_waiting ws w st :
  forallb waiting (w :: ws) = true -> finishAll (w :: ws) st = drainInTurn st.
Proof.
  cbn [forallb]. intros Hw. apply andb_prop in Hw. destruct Hw as [Hw Hws].
  destruct w; try discriminate. unfold finishAll. cbn [fold_left].
  change (runAlone Receiving st) with (drainInTurn st).
  apply finishAll_done; [apply drainInTurn_files | exact Hws].
Qed.

(** Once the channel is empty and at most one worker is still in an
    iteration, no step changes the outcome. *)
Lemma workerStep_files_nil w st :
  files st = [] -> files (snd (workerStep w st)) = [].
Proof. intros H. destruct w; cbn [workerStep]; try exact H. now rewrite H. Qed.

Lemma stepAt_last_worker ws : forall i st,
  files st = [] ->
  (List.length (filter (fun w => negb (waiting w)) ws) <= 1)%nat ->
  files (snd (stepAt i ws st)) = [] /\
  (List.length (filter (fun w => negb (waiting w)) (fst (stepAt i ws st))) <= 1)%nat /\
  finishAll (fst (stepAt i ws st)) (snd (stepAt i ws st)) = finishAll ws st.
Proof.
  induction ws as [|w ws IH]; intros i st Hf Hb; cbn [stepAt].
  - auto.
  - destruct i as [|j].
    + pose proof (runAlone_step w st) as Hr.
      pose proof (workerStep_files_nil w st Hf) as Hn.
      assert (Hw : waiting w = true -> fst (workerStep w st) = Receiving).
      { destruct w; try discriminate. intros _. cbn [workerStep]. now rewrite Hf. }
      destruct (workerStep w st) as [w' st']. cbn [fst snd] in *.
      split; [exact Hn|]. split.
      * cbn [filter] in *. destruct (waiting w) eqn:E.
        -- rewrite (Hw eq_refl). exact Hb.
        -- cbn [negb] in Hb. cbn [List.length] in Hb.
           destruct (negb (waiting w')); cbn [List.length]; lia.
      * unfold finishAll. cbn [fold_left]. now rewrite Hr.
    + destruct (waiting w) eqn:E.
      * destruct w; try discriminate. cbn [filter waiting negb] in Hb.
        destruct (IH j st Hf Hb) as (H1 & H2 & H3).
        destruct (stepAt j ws st) as [ws' st']. cbn [fst snd] in *.
        split; [exact H1|]. split; [exact H2|].
        unfold finishAll in *. cbn [fold_left].
        rewrite !runAlone_done by assumption. exact H3.
      * cbn [filter] in Hb. rewrite E in Hb. cbn [negb List.length] in Hb.
        assert (Hidle : forallb waiting ws = true).
        { clear - Hb. induction ws as [|x ws IH]; [reflexivity|].
          cbn [filter forallb] in *. destruct (waiting x); cbn [negb andb] in *.
          - apply IH. exact Hb.
          - cbn [List.length] in Hb. lia. }
        rewrite stepAt_done by assumption. cbn [fst snd].
        split; [exact Hf|]. split; [|reflexivity].
        cbn [filter]. rewrite E. cbn [negb List.length]. exact Hb.
Qed.

Lemma runSchedule_last_worker schedule : forall ws st,
  files st = [] ->
  (List.length (filter (fun w => negb (waiting w)) ws) <= 1)%nat ->
  (let '(ws', st') := runSchedule schedule ws st in finishAll ws' st') =
  finishAll ws st.
Proof.
  induction schedule as [|i later IH]; intros ws st Hf Hb; cbn [runSchedule].
  - reflexivity.
  - destruct (stepAt_last_worker ws i st Hf Hb) as (H1 & H2 & H3).
    destruct (stepAt i ws st) as [ws' st']. cbn [fst snd] in *.
    rewrite IH by assumption. exact H3.
Qed.

(** A single path on the channel: one worker receives it, whichever
    the scheduler picks. *)
Lemma stepAt_single_file ws : forall i st file,
  files st = [file] -> forallb waiting ws = true ->
  stepAt i ws st = (ws, st) \/
  (files (snd (stepAt i ws st)) = [] /\
   (List.length (filter (fun w => negb (waiting w)) (fst (stepAt i ws st))) <= 1)%nat /\
   finishAll (fst (stepAt i ws st)) (snd (stepAt i ws st)) = drainInTurn st).
Proof.
  induction ws as [|w ws IH]; intros i st file Hf Hw; cbn [stepAt].
  - now left.
  - cbn [forallb] in Hw. apply andb_prop in Hw. destruct Hw as [Hw Hws].
    destruct w; try discriminate. destruct i as [|j].
    + right. pose proof (runAlone_step Receiving st) as Hr.
      cbn [workerStep] in *. rewrite Hf in *. cbn [fst snd] in *.
      split; [reflexivity|]. split.
      * cbn [filter waiting negb List.length].
        assert (H0 : filter (fun w => negb (waiting w)) ws = []).
        { clear - Hws. induction ws as [|x ws IH]; [reflexivity|].
          cbn [filter forallb] in *. apply andb_prop in Hws.
          destruct Hws as [Hx Hws]. rewrite Hx. cbn [negb]. now apply IH. }
        rewrite H0. cbn [List.length]. lia.
      * unfold finishAll. cbn [fold_left]. rewrite Hr.
        change (runAlone Receiving st) with (drainInTurn st).
        apply finishAll_done; [apply drainInTurn_files | exact Hws].
    + destruct (IH j st file Hf Hws) as [H | (H1 & H2 & H3)].
      * left. now rewrite H.
      * right. destruct (stepAt j ws st) as [ws' st']. cbn [fst snd] in *.
        split; [exact H1|]. split; [exact H2|].
        unfold finishAll in *. cbn [fold_left].
        rewrite runAlone_done by exact H1. exact H3.
Qed.

Lemma runSchedule_single_file schedule : forall ws w st file,
  files st = [file] -> forallb waiting (w :: ws) = true ->
  (let '(ws', st') := runSchedule schedule (w :: ws) st in finishAll ws' st') =
  drainInTurn st.
Proof.
  induction schedule as [|i later IH]; intros ws w st file Hf Hw;
    cbn [runSchedule].
  - now apply finishAll_waiting.
  - destruct (stepAt_single_file (w :: ws) i st file Hf Hw) as [H | (H1 & H2 & H3)].
    + rewrite H. now apply (IH ws w st file).
    + destruct (stepAt i (w :: ws) st) as [ws' st']. cbn [fst snd] in *.
      rewrite runSchedule_last_worker by assumption. exact H3.
Qed.

(** At most one path sent: no update can be lost, whatever the number
    of workers and the schedule. *)
Lemma drain_single_file workers schedule st :
  (List.length (files st) <= 1)%nat ->
  drain (S workers) schedule st = drainInTurn st.
Proof.
  intros Hl. destruct (files st) as [|file [|file' rest]] eqn:Hf.
  - rewrite drain_empty by exact Hf. unfold drainInTurn. rewrite Hf.
    destruct st; cbn in *. now subst.
  - unfold drain. cbn [repeat].
    apply (runSchedule_single_file schedule _ _ st file Hf).
    apply (waiting_repeat (S workers)).
  - cbn [List.length] in Hl. lia.
Qed.

(** ** Entries on which the traversal reports an error *)

(** The pool variant with the guarded average returns at once. *)
Lemma Pool_walkFn_error st e :
  e_err e = true -> Pool.walkFn st e = Returned (Continue, st).
Proof. intros H. unfold Pool.walkFn. now rewrite H. Qed.

(** So does src/main.go without [-v]. *)
Lemma Main_quiet_walkFn_error st v :
  v_err v = true -> Main.walkFn false st v = Returned st.
Proof. intros H. unfold Main.walkFn. now rewrite H. Qed.

(** The other callbacks go on to [info.IsDir()], whatever [err] is: on a
    nil [info] they panic. *)
Lemma nil_info_panics st v e :
  v_info v = None -> e_info e = None ->
  Logged.walkFn st v = Panicked /\ Plain.walkFn st v = Panicked /\
  Main.walkFn true st v = Panicked /\
  forall pst, PoolProc.walkFn pst e = Panicked.
Proof.
  intros Hv He. unfold Logged.walkFn, Plain.walkFn, Main.walkFn, PoolProc.walkFn.
  rewrite Hv, He, andb_false_r. repeat split.
Qed.

Lemma Walk_app fn before after st :
  Walk fn st (before ++ after) =
    match Walk fn st before with
    | Returned st' => Walk fn st' after
    | Panicked => Panicked
    end.
Proof.
  revert st. induction before as [|x before IH]; intros st; simpl.
  - reflexivity.
  - destruct (fn st x) as [st1|]; [apply IH | reflexivity].
Qed.

(** Wherever such an entry sits in the walk, the scan dies. *)
Lemma Logged_scan_nil_info before v after :
  v_info v = None -> Logged.scan (before ++ v :: after) = Panicked.
Proof.
  intros Hv. unfold Logged.scan. rewrite Walk_app.
  destruct (Walk Logged.walkFn initialState before) as [st|]; [|reflexivity].
  simpl. unfold Logged.walkFn at 1. now rewrite Hv.
Qed.

(** C6 (failing input). An entry whose Lstat failed reaches the callback
    with a nil [info] and the error.  The variant with a logger, the
    first variant, src/main.go with [-v] and the pool variant that skips
    /proc all panic on it, so the entries after it are never visited; on
    a directory that cannot be read they count the directory.  The pool
    variant with the guarded average and src/main.go without [-v] skip
    the entry and go on: the pool returns with any number of workers
    under any schedule, and with one worker it has counted the two
    files. *)
Theorem traversal_error_panics :
  Logged.scan [notes; vanished; notes] = Panicked /\
  Plain.scan [notes; vanished; notes] = Panicked /\
  Main.scan true [notes; vanished; notes] = Panicked /\
  (forall workers schedule,
     PoolProc.scan workers schedule [fileEntry; vanishedEntry; fileEntry]
     = Panicked) /\
  (exists st, Logged.scan [locked] = Returned st /\ totalDirectoriesCount st = 1) /\
  (forall schedule, exists st,
     Pool.scan 1 schedule [fileEntry; vanishedEntry; fileEntry] = Returned st /\
     totalFileCount st = 2 /\ poolCapacity st = 14 /\ totalDirectories st = 0) /\
  (forall workers schedule, exists st,
     Pool.scan workers schedule [fileEntry; vanishedEntry; fileEntry]
     = Returned st /\ totalDirectories st = 0) /\
  (exists st, Main.scan false [notes; vanished; locked; notes] = Returned st /\
     totalFilesCount st = 2 /\ totalCapacity st = 14 /\
     totalDirectoriesCount st = 0).
Proof.
  split; [vm_compute; reflexivity|].
  split; [vm_compute; reflexivity|].
  split; [vm_compute; reflexivity|].
  split; [intros workers schedule; unfold PoolProc.scan; pool_walk; reflexivity|].
  split; [eexists; split; [vm_compute; reflexivity | reflexivity]|].
  split.
  { intros schedule. unfold Pool.scan. pool_walk. rewrite drain_one_worker.
    eexists. split; [reflexivity|]. vm_compute. repeat split. }
  split.
  { intros workers schedule. unfold Pool.scan. pool_walk.
    eexists. split; [reflexivity|]. now rewrite drain_directories. }
  eexists. split; [vm_compute; reflexivity|]. vm_compute. repeat split.
Qed.

(** ** The average file size *)

(** The guarded division: zero files give zero. *)
Lemma Pool_avgFileSize_zero totalCapacity :
  Pool.avgFileSize totalCapacity 0 = 0.
Proof. reflexivity. Qed.

Lemma Pool_avgFileSize_positive totalCapacity totalFileCount :
  0 < totalFileCount ->
  Pool.avgFileSize totalCapacity totalFileCount = totalCapacity / totalFileCount.
Proof.
  intros H. unfold Pool.avgFileSize.
  destruct (Z.gtb_spec totalFileCount 0); [reflexivity | lia].
Qed.

(** The unguarded division of the other pool variant. *)
Lemma PoolProc_divide_zero totalCapacity :
  PoolProc.divide totalCapacity 0 = Panicked.
Proof. reflexivity. Qed.

(** C5 (failing input). A tree that holds a directory and no file: both
    pool variants finish the scan with [totalFileCount = 0], with any
    number of workers under any schedule; the one with the guard
    reports the average "0 B", the one that skips /proc divides
    [totalCapacity] by [totalFileCount] and panics. *)
Theorem unguarded_average_panics_on_empty_tree :
  (forall workers schedule, exists st,
     PoolProc.scan workers schedule [dirEntry] = Returned st /\
     totalFileCount st = 0 /\ PoolProc.averageReport st = Panicked) /\
  (forall workers schedule, exists st,
     Pool.scan workers schedule [dirEntry] = Returned st /\
     totalFileCount st = 0 /\ Pool.averageReport st = Returned "0 B").
Proof.
  split; intros workers schedule.
  - unfold PoolProc.scan. pool_walk. rewrite drain_empty by reflexivity.
    eexists. split; [reflexivity|]. vm_compute. split; reflexivity.
  - unfold Pool.scan. pool_walk. rewrite drain_empty by reflexivity.
    eexists. split; [reflexivity|]. vm_compute. split; reflexivity.
Qed.

(** ** The classifier *)

(** The flag is never cleared: a line either sets it or leaves it. *)
Lemma scanRunes_sticky isBinary l :
  scanRunes isBinary l = isBinary || existsb outsidePrintable l.
Proof.
  induction l as [|c l IH]; simpl.
  - now rewrite orb_false_r.
  - destruct (outsidePrintable c); simpl; [now rewrite orb_true_r | exact IH].
Qed.

Lemma lineSetsFlag_existsb l : lineSetsFlag l = existsb outsidePrintable l.
Proof. unfold lineSetsFlag. now rewrite scanRunes_sticky. Qed.

Lemma classifyLoop_closed lines : forall i isBinary extension,
  0 <= i <= 10 ->
  classifyLoop i lines isBinary extension =
    match firstn (Z.to_nat (10 - i)) lines with
    | [] => extension
    | examined =>
        if isBinary || existsb (existsb outsidePrintable) examined
        then no_extension_binary else no_extension_text
    end.
Proof.
  induction lines as [|l rest IH]; intros i isBinary extension Hi;
    cbn [classifyLoop].
  - rewrite firstn_nil. now destruct (i <? 10).
  - destruct (Z.ltb_spec i 10) as [Hlt|Hge].
    + replace (Z.to_nat (10 - i)) with (S (Z.to_nat (10 - (i + 1)))) by lia.
      rewrite IH by lia.
      remember (Z.to_nat (10 - (i + 1))) as n eqn:En. clear En.
      cbn [firstn]. rewrite scanRunes_sticky.
      destruct (firstn n rest) as [|l' examined]; cbn [existsb].
      * now rewrite orb_false_r.
      * rewrite <- !orb_assoc.
        destruct (isBinary || (existsb outsidePrintable l
                   || (existsb outsidePrintable l'
                       || existsb (existsb outsidePrintable) examined)));
          reflexivity.
    + replace (Z.to_nat (10 - i)) with O by lia. reflexivity.
Qed.

(** The label in closed form; a file that yields no line keeps the empty
    extension. *)
Lemma classify_closed lines :
  classify lines =
    match firstn 10 lines with
    | [] => ""
    | examined =>
        if existsb (existsb outsidePrintable) examined
        then no_extension_binary else no_extension_text
    end.
Proof.
  unfold classify. rewrite classifyLoop_closed by lia. reflexivity.
Qed.

(** C3 (amended). The label of a readable file without extension from
    which at least one line is read is decided by all the lines examined
    (the first 10 at most), not by the last one: [isBinary] is never
    reset, so the file is labelled binary iff some examined line sets the
    flag (holds a character outside 32..126), and text iff none does. *)
Theorem classify_any_examined_line lines :
  lines <> [] ->
  (classify lines = no_extension_binary <->
     exists l, In l (firstn 10 lines) /\ lineSetsFlag l = true) /\
  (classify lines = no_extension_text <->
     forall l, In l (firstn 10 lines) -> lineSetsFlag l = false).
Proof.
  intros Hne. rewrite classify_closed.
  destruct lines as [|l0 rest]; [congruence|]. clear Hne.
  change (firstn 10 (l0 :: rest)) with (l0 :: firstn 9 rest).
  lazy beta iota.
  set (examined := l0 :: firstn 9 rest).
  destruct (existsb (existsb outsidePrintable) examined) eqn:E.
  - apply existsb_exists in E. destruct E as [l [Hin Hl]].
    rewrite <- lineSetsFlag_existsb in Hl. split; split.
    + intros _. now exists l.
    + reflexivity.
    + discriminate.
    + intros H. specialize (H l Hin). congruence.
  - assert (Hall : forall l, In l examined -> lineSetsFlag l = false).
    { intros l Hin. rewrite lineSetsFlag_existsb.
      destruct (existsb outsidePrintable l) eqn:El; [|reflexivity].
      assert (existsb (existsb outsidePrintable) examined = true)
        by (apply existsb_exists; now exists l).
      congruence. }
    split; split.
    + discriminate.
    + intros [l [Hin Hl]]. specialize (Hall l Hin). congruence.
    + intros _. exact Hall.
    + reflexivity.
Qed.

Lemma classify_any_examined_line_witness :
  classify [[104; 105]; [7]; [111; 107]] = no_extension_binary /\
  classify [[104; 105]; [111; 107]] = no_extension_text.
Proof.
  split.
  - apply (proj1 (classify_any_examined_line [[104; 105]; [7]; [111; 107]]
                    ltac:(discriminate))).
    exists [7]. split; [simpl; tauto | reflexivity].
  - apply (proj2 (classify_any_examined_line [[104; 105]; [111; 107]]
                    ltac:(discriminate))).
    intros l [<-|[<-|[]]]; reflexivity.
Defined.

(** C3 as stated fails on a file of two lines, a bell character and then
    a letter: evaluating the last line leaves a clear flag clear, yet the
    file is labelled binary. *)
Lemma classify_not_last_line :
  lastExamined [[7]; [97]] = [97] /\
  lineSetsFlag (lastExamined [[7]; [97]]) = false /\
  classify [[7]; [97]] = no_extension_binary /\
  ~ (classify [[7]; [97]] = no_extension_binary <->
     lineSetsFlag (lastExamined [[7]; [97]]) = true).
Proof.
  repeat split; try reflexivity.
  intros [H _]. specialize (H eq_refl). discriminate H.
Qed.

(** ** The pool: what an entry adds to the counters *)

(** The walker of [Pool]. *)
Lemma WalkPool_Pool_closed entries : forall f c k d,
  WalkPool Pool.walkFn []
    {| files := f; totalFileCount := c; poolCapacity := k;
       totalDirectories := Uint64.wrap d |} entries =
  if forallb poolSurvives entries then
    Returned
      {| files := f ++ filter poolSends entries;
         totalFileCount := c; poolCapacity := k;
         totalDirectories :=
           Uint64.wrap (d + Z.of_nat (List.length (filter poolCountsDir entries))) |}
  else Panicked.
Proof.
  induction entries as [|e rest IH]; intros f c k d;
    cbn [WalkPool forallb filter existsb].
  - now rewrite app_nil_r, Z.add_0_r.
  - unfold Pool.walkFn, poolSurvives, poolSends, poolCountsDir.
    destruct (e_err e); cbn [negb andb orb].
    + apply IH.
    + destruct (e_info e) as [info|]; [|reflexivity].
      destruct (IsDir info); cbn [negb andb orb].
      * unfold countDir; cbn [files totalFileCount poolCapacity totalDirectories].
        unfold Uint64.add. rewrite Uint64_wrap_add_l, IH.
        destruct (forallb _ rest); [|reflexivity].
        cbn [List.length]. do 2 f_equal. unfold poolCountsDir. f_equal. lia.
      * unfold send; cbn [files totalFileCount poolCapacity totalDirectories].
        rewrite IH. destruct (forallb _ rest); [|reflexivity].
        now rewrite <- app_assoc.
Qed.

(** The scan of [Pool]: the walker, then the workers on what it sent. *)
Lemma Pool_scan_walk workers schedule entries :
  Pool.scan workers schedule entries =
  if forallb poolSurvives entries then
    Returned
      (drain workers schedule
         {| files := filter poolSends entries;
            totalFileCount := 0; poolCapacity := 0;
            totalDirectories :=
              Uint64.wrap (Z.of_nat (List.length (filter poolCountsDir entries))) |})
  else Panicked.
Proof.
  unfold Pool.scan, poolStart.
  pose proof (WalkPool_Pool_closed entries [] 0 0 0) as H.
  change (Uint64.wrap 0) with 0 in H. rewrite H. clear H.
  destruct (forallb poolSurvives entries); reflexivity.
Qed.

(** The channel drained in turn, in closed form. *)
Lemma drainInTurn_closed l d :
  drainInTurn {| files := l; totalFileCount := 0; poolCapacity := 0;
                 totalDirectories := d |} =
  {| files := [];
     totalFileCount := Uint64.wrap (Z.of_nat (List.length l));
     poolCapacity := Uint64.wrap (sumZ (map (fun e => fst (processFile e)) l));
     totalDirectories := d |}.
Proof.
  unfold drainInTurn. cbn [files totalFileCount poolCapacity totalDirectories].
  pose proof (work_closed l [] 0 0 d) as H.
  change (Uint64.wrap 0) with 0 in H. rewrite H. reflexivity.
Qed.

(** The whole scan of [Pool] with a single worker, in closed form. *)
Lemma Pool_scan_closed schedule entries :
  Pool.scan 1 schedule entries =
  if forallb poolSurvives entries then
    Returned
      {| files := [];
         totalFileCount :=
           Uint64.wrap (Z.of_nat (List.length (filter poolSends entries)));
         poolCapacity :=
           Uint64.wrap (sumZ (map (fun e => fst (processFile e))
                                  (filter poolSends entries)));
         totalDirectories :=
           Uint64.wrap (Z.of_nat (List.length (filter poolCountsDir entries))) |}
  else Panicked.
Proof.
  rewrite Pool_scan_walk. destruct (forallb poolSurvives entries); [|reflexivity].
  now rewrite drain_one_worker, drainInTurn_closed.
Qed.

(** A symbolic link is sent to the workers and [processFile] gives it
    size zero. *)
Lemma symlink_is_sent link info :
  e_err link = false -> e_info link = Some info -> IsDir info = false ->
  poolSurvives link = true /\ poolSends link = true /\ poolCountsDir link = false.
Proof.
  intros He Hi Hd. unfold poolSurvives, poolSends, poolCountsDir.
  rewrite He, Hi, Hd. repeat split.
Qed.

Lemma processFile_symlink link linfo :
  e_lstat link = Some linfo -> IsSymlink linfo = true ->
  processFile link = (0, false).
Proof. intros Hl Hs. unfold processFile. now rewrite Hl, Hs. Qed.

(** With one worker, a symbolic link met during the traversal leaves
    the capacity and the directory count as they are and adds one to the
    file count. *)
Lemma Pool_symlink_adds_one_file schedule schedule' before after link info linfo st :
  e_err link = false -> e_info link = Some info -> IsDir info = false ->
  e_lstat link = Some linfo -> IsSymlink linfo = true ->
  Pool.scan 1 schedule (before ++ after) = Returned st ->
  exists st', Pool.scan 1 schedule' (before ++ link :: after) = Returned st' /\
    totalFileCount st' = Uint64.add (totalFileCount st) 1 /\
    poolCapacity st' = poolCapacity st /\
    totalDirectories st' = totalDirectories st.
Proof.
  intros He Hi Hd Hl Hs Hscan.
  pose proof (processFile_symlink link linfo Hl Hs) as Hp.
  destruct (symlink_is_sent link info He Hi Hd) as (H1 & H2 & H3).
  rewrite Pool_scan_closed in Hscan |- *.
  rewrite forallb_app in Hscan |- *. cbn [forallb]. rewrite H1. cbn [andb].
  destruct (forallb poolSurvives before && forallb poolSurvives after);
    [|discriminate].
  inversion Hscan; subst st; clear Hscan.
  eexists. split; [reflexivity|].
  cbn [files totalFileCount poolCapacity totalDirectories].
  rewrite !filter_app. cbn [filter]. rewrite H2, H3.
  rewrite !map_app, !sumZ_app, !length_app. cbn [map sumZ fold_right List.length].
  rewrite Hp. cbn [fst]. unfold Uint64.add. rewrite Uint64_wrap_add_l.
  repeat split; f_equal; lia.
Qed.

(** C8 (failing input). A directory that holds one symbolic link.  The
    walker meets the link ([Lstat] reports it, and it is not a
    directory) and sends it to the workers; [processFile] detects it
    through [os.Lstat] and answers size zero and no error, so the worker
    that received it cannot tell it from a file and increments
    [totalFileCount].  Both pool variants, with any number of workers
    (at least one) under any schedule, end with one file counted,
    against none for the same directory without the link; the capacity
    and the directory count are as without the link. *)
Theorem symlink_counted_as_file :
  IsSymlink (symlink 9 1000) = true /\
  e_info linkEntry = Some (symlink 9 1000) /\
  e_lstat linkEntry = Some (symlink 9 1000) /\
  processFile linkEntry = (0, false) /\
  (forall workers schedule,
     Pool.scan (S workers) schedule [dirEntry; linkEntry] =
     Returned {| files := []; totalFileCount := 1; poolCapacity := 0;
                 totalDirectories := 1 |}) /\
  (forall workers schedule,
     PoolProc.scan (S workers) schedule [dirEntry; linkEntry] =
     Returned {| files := []; totalFileCount := 1; poolCapacity := 0;
                 totalDirectories := 1 |}) /\
  (forall workers schedule,
     Pool.scan (S workers) schedule [dirEntry] =
     Returned {| files := []; totalFileCount := 0; poolCapacity := 0;
                 totalDirectories := 1 |}) /\
  (forall workers schedule,
     PoolProc.scan (S workers) schedule [dirEntry] =
     Returned {| files := []; totalFileCount := 0; poolCapacity := 0;
                 totalDirectories := 1 |}).
Proof.
  split; [reflexivity|]. split; [reflexivity|]. split; [reflexivity|].
  split; [reflexivity|].
  split; [|split; [|split]]; intros workers schedule.
  - unfold Pool.scan. pool_walk.
    rewrite drain_single_file by (cbn [files List.length]; lia). reflexivity.
  - unfold PoolProc.scan. pool_walk.
    rewrite drain_single_file by (cbn [files List.length]; lia). reflexivity.
  - unfold Pool.scan. pool_walk. now rewrite drain_empty.
  - unfold PoolProc.scan. pool_walk. now rewrite drain_empty.
Qed.

(** ** The size formatters *)

(** The loop of [formatSize] leaves through its guard, with the exponent
    bounded by the size of the number. *)
Lemma formatSizeLoop_exits fuel : forall (k : nat) n div exp,
  (k <= fuel)%nat -> 0 <= n < 1024 ^ (Z.of_nat k + 1) ->
  let '(n', _, exp') := formatSizeLoop fuel n div exp in
  n' < 1024 /\ exp <= exp' <= exp + Z.of_nat k.
Proof.
  induction fuel as [|fuel IH]; intros k n div exp Hk Hn; cbn [formatSizeLoop].
  - assert (k = O) by lia. subst k. simpl in Hn. lia.
  - destruct (Z.geb_spec n 1024) as [Hge|Hlt]; [|lia].
    destruct k as [|k].
    { simpl in Hn. lia. }
    specialize (IH k (n / 1024) (Int64.mul div 1024) (exp + 1)).
    assert (Hdiv : 0 <= n / 1024 < 1024 ^ (Z.of_nat k + 1)).
    { split; [apply Z.div_pos; lia|].
      apply Z.div_lt_upper_bound; [lia|].
      replace (Z.of_nat (S k) + 1) with (Z.succ (Z.of_nat k + 1)) in Hn by lia.
      rewrite Z.pow_succ_r in Hn by lia. lia. }
    specialize (IH ltac:(lia) Hdiv).
    destruct (formatSizeLoop fuel (n / 1024) (Int64.mul div 1024) (exp + 1))
      as [[n' div'] exp'].
    lia.
Qed.

Lemma byteAt_KMGTPE exp : 0 <= exp <= 5 -> exists c, byteAt "KMGTPE" exp = Returned c.
Proof.
  intros H.
  assert (E : exp = 0 \/ exp = 1 \/ exp = 2 \/ exp = 3 \/ exp = 4 \/ exp = 5) by lia.
  destruct E as [->|[->|[->|[->|[->| ->]]]]]; eexists; reflexivity.
Qed.

(** [formatSize] returns a string for every [uint64]: the index into
    "KMGTPE" is never out of range. *)
Lemma formatSize_returns size :
  Uint64.in_range size -> exists s, formatSize size = Returned s.
Proof.
  unfold Uint64.in_range, Uint64.modulus. intros Hr. unfold formatSize.
  destruct (Z.ltb_spec size 1024) as [Hlt|Hge]; [eexists; reflexivity|].
  pose proof (formatSizeLoop_exits 7 5 (size / 1024) 1024 0 ltac:(lia)) as H.
  assert (Hn : 0 <= size / 1024 < 1024 ^ (Z.of_nat 5 + 1)).
  { split; [apply Z.div_pos; lia|].
    apply Z.div_lt_upper_bound; [lia|]. simpl. lia. }
  specialize (H Hn).
  destruct (formatSizeLoop 7 (size / 1024) 1024 0) as [[n' div'] exp'].
  destruct (byteAt_KMGTPE exp' ltac:(lia)) as [c Hc]. rewrite Hc.
  eexists. reflexivity.
Qed.

(** Below 1024 the three formatters print the plain number. *)
Lemma formatSize_small size :
  size < 1024 -> formatSize size = Returned (Sprintf_d size ++ " B").
Proof.
  intros H. unfold formatSize.
  destruct (Z.ltb_spec size 1024); [reflexivity | lia].
Qed.

Lemma Main_humanReadableSize_small logUnit size :
  size < 1024 ->
  Main.humanReadableSize logUnit size = Returned (Sprintf_d size ++ " B").
Proof.
  intros H. unfold Main.humanReadableSize.
  destruct (Z.ltb_spec size 1024); [reflexivity | lia].
Qed.

Lemma Logged_humanReadableSize_small size :
  size < 1024 -> Logged.humanReadableSize size = Sprintf_d size ++ " bytes".
Proof.
  intros H. unfold Logged.humanReadableSize.
  destruct (Z.ltb_spec size 1024); [reflexivity | lia].
Qed.

(** C9 (amended). [formatSize] of the pool variants maps 0 to "0 B",
    1023 to "1023 B", 1024 to "1.0 KiB", 1048576 to "1.0 MiB" and 1536 to
    "1.5 KiB"; so does [humanReadableSize] of src/main.go, whenever its
    floating-point exponent [int64(log(size)/log(1024))] comes out as 1
    at 1024 and 1536 and as 2 at 1048576.  The older [humanReadableSize]
    (the variant with a logger and the first variant) prints "bytes" and
    two decimals: "0 bytes", "1023 bytes", "1.00 KiB", "1.00 MiB",
    "1.50 KiB". *)
Theorem size_formatter_examples (logUnit : Z -> Z) :
  logUnit 1024 = 1 -> logUnit 1536 = 1 -> logUnit 1048576 = 2 ->
  (formatSize 0 = Returned "0 B" /\
   formatSize 1023 = Returned "1023 B" /\
   formatSize 1024 = Returned "1.0 KiB" /\
   formatSize 1048576 = Returned "1.0 MiB" /\
   formatSize 1536 = Returned "1.5 KiB") /\
  (Main.humanReadableSize logUnit 0 = Returned "0 B" /\
   Main.humanReadableSize logUnit 1023 = Returned "1023 B" /\
   Main.humanReadableSize logUnit 1024 = Returned "1.0 KiB" /\
   Main.humanReadableSize logUnit 1048576 = Returned "1.0 MiB" /\
   Main.humanReadableSize logUnit 1536 = Returned "1.5 KiB") /\
  (Logged.humanReadableSize 0 = "0 bytes" /\
   Logged.humanReadableSize 1023 = "1023 bytes" /\
   Logged.humanReadableSize 1024 = "1.00 KiB" /\
   Logged.humanReadableSize 1048576 = "1.00 MiB" /\
   Logged.humanReadableSize 1536 = "1.50 KiB").
Proof.
  intros H1 H2 H3.
  split; [repeat split; vm_compute; reflexivity|].
  split; [|repeat split; vm_compute; reflexivity].
  unfold Main.humanReadableSize.
  cbn [Z.ltb Z.compare Pos.compare Pos.compare_cont].
  rewrite H1, H2, H3.
  repeat split; vm_compute; reflexivity.
Qed.

Lemma size_formatter_examples_witness :
  Main.humanReadableSize (fun size => Z.log2 size / 10) 1536 = Returned "1.5 KiB" /\
  formatSize 1536 = Returned "1.5 KiB" /\
  Logged.humanReadableSize 1536 = "1.50 KiB".
Proof.
  destruct (size_formatter_examples (fun size => Z.log2 size / 10)
              eq_refl eq_refl eq_refl)
    as ((_ & _ & _ & _ & F) & (_ & _ & _ & _ & M) & (_ & _ & _ & _ & L)).
  repeat split; assumption.
Defined.

(** C9 as stated fails on the older [humanReadableSize]: zero is printed
    as "0 bytes" and 1024 as "1.00 KiB". *)
Lemma older_formatter_prints_bytes :
  Logged.humanReadableSize 0 = "0 bytes" /\
  Logged.humanReadableSize 0 <> "0 B" /\
  Logged.humanReadableSize 1024 <> "1.0 KiB".
Proof.
  repeat split; try (vm_compute; reflexivity);
    vm_compute; intros H; discriminate H.
Qed.

(** ** No group of src/main.go is empty *)

Lemma upsert_Forall_step {A : Type} (hit : A -> bool) (upd : A -> A) (new : A)
    (P Q : A -> Prop) l :
  (forall x, P x -> Q x) -> (forall x, P x -> Q (upd x)) -> Q new ->
  Forall P l -> Forall Q (upsert hit upd new l).
Proof.
  intros Hweak Hupd Hnew. unfold upsert.
  induction l as [|x l IH]; simpl; intros Hall.
  - repeat constructor. exact Hnew.
  - inversion Hall as [|? ? Hx Hl]; subst.
    destruct (hit x).
    + constructor; [auto|]. eapply Forall_impl; [exact Hweak | exact Hl].
    + specialize (IH Hl).
      destruct (update_first hit upd l) as [l' found].
      destruct found; simpl; constructor; auto.
Qed.

Lemma Int64_succ_small c n :
  1 <= c <= n -> n + 1 < Int64.half -> Int64.add c 1 = c + 1.
Proof.
  intros Hc Hn. unfold Int64.add. apply Int64_wrap_small.
  unfold Int64.in_range, Int64.half in *. lia.
Qed.

Lemma aggregate_counts_within n e o s st :
  0 <= n -> n + 1 < Int64.half ->
  counts_within n st -> counts_within (n + 1) (aggregate e o s st).
Proof.
  intros Hn Hb [Hf Hu]. unfold counts_within, aggregate; simpl.
  rewrite addFileType_upsert, addUserInfo_upsert. split.
  - eapply upsert_Forall_step; [| | | exact Hf]; simpl.
    + intros t [Hc Hx]. split; [lia|].
      eapply Forall_impl; [|exact Hx]. simpl. intros; lia.
    + intros t [Hc Hx]. rewrite (Int64_succ_small _ n) by assumption.
      split; [lia|]. rewrite addUser_upsert.
      eapply upsert_Forall_step; [| | | exact Hx]; simpl.
      * intros; lia.
      * intros x Hxc. rewrite (Int64_succ_small _ n) by assumption. lia.
      * lia.
    + split; [lia|]. repeat constructor; simpl; lia.
  - eapply upsert_Forall_step; [| | | exact Hu]; simpl.
    + intros u [Hc Hx]. split; [lia|].
      eapply Forall_impl; [|exact Hx]. simpl. intros; lia.
    + intros u [Hc Hx]. rewrite (Int64_succ_small _ n) by assumption.
      split; [lia|]. rewrite addExtension_upsert.
      eapply upsert_Forall_step; [| | | exact Hx]; simpl.
      * intros; lia.
      * intros x Hxc. rewrite (Int64_succ_small _ n) by assumption. lia.
      * lia.
    + split; [lia|]. repeat constructor; simpl; lia.
Qed.

Lemma counts_within_weaken n st :
  counts_within n st -> counts_within (n + 1) st.
Proof.
  intros [Hf Hu]. split.
  - eapply Forall_impl; [|exact Hf]. simpl. intros t [Hc Hx]. split; [lia|].
    eapply Forall_impl; [|exact Hx]. simpl. intros; lia.
  - eapply Forall_impl; [|exact Hu]. simpl. intros u [Hc Hx]. split; [lia|].
    eapply Forall_impl; [|exact Hx]. simpl. intros; lia.
Qed.

Lemma Main_walkFn_counts_within verboseEnabled n st v st' :
  0 <= n -> n + 1 < Int64.half -> counts_within n st ->
  Main.walkFn verboseEnabled st v = Returned st' -> counts_within (n + 1) st'.
Proof.
  intros Hn Hb HP. unfold Main.walkFn.
  pose proof (counts_within_weaken n st HP) as Hw.
  pose proof (fun e o s size => aggregate_counts_within n e o s
                (addCapacity size (countFile st)) Hn Hb HP) as Ha.
  destruct (v_err v && negb verboseEnabled).
  { intros E; inversion E; subst; exact Hw. }
  destruct (v_info v) as [info|]; [|discriminate].
  destruct (negb (IsDir info)).
  - destruct (if String.eqb (Ext (v_path v)) "" then _ else _) as [extension|].
    + destruct (v_lookup v) as [owner|]; [|destruct verboseEnabled];
        intros E; inversion E; subst; solve [apply Ha | exact Hw].
    + intros E; inversion E; subst. exact Hw.
  - intros E; inversion E; subst. exact Hw.
Qed.

Lemma Main_Walk_counts_within verboseEnabled visits : forall n st st',
  0 <= n -> n + Z.of_nat (List.length visits) < Int64.half ->
  counts_within n st ->
  Walk (Main.walkFn verboseEnabled) st visits = Returned st' ->
  counts_within (n + Z.of_nat (List.length visits)) st'.
Proof.
  induction visits as [|v rest IH]; intros n st st' Hn Hb HP HW.
  - simpl in *. inversion HW; subst. now rewrite Z.add_0_r.
  - cbn [Walk] in HW. cbn [List.length] in *.
    destruct (Main.walkFn verboseEnabled st v) as [st1|] eqn:E; [|discriminate].
    apply (Main_walkFn_counts_within _ n) in E; [|lia|lia|exact HP].
    replace (n + Z.of_nat (S (List.length rest)))
      with (n + 1 + Z.of_nat (List.length rest)) by lia.
    eapply IH; [lia | lia | exact E | exact HW].
Qed.

(** On a completed scan of fewer than 2^63 entries every group of
    src/main.go, nested ones included, holds at least one file: the
    report never calls [averageFileSize] with a zero [fileCount]. *)
Lemma Main_groups_never_empty verboseEnabled visits st :
  Z.of_nat (List.length visits) < Int64.half ->
  Main.scan verboseEnabled visits = Returned st ->
  counts_within (Z.of_nat (List.length visits)) st.
Proof.
  intros Hb H.
  apply (Main_Walk_counts_within verboseEnabled visits 0 initialState st);
    [lia | lia | | exact H].
  split; constructor.
Qed.

(** * Further properties of the code *)

(** ** [filepath.Ext] and the group labels *)

Lemma string_of_list_ascii_app l1 l2 :
  string_of_list_ascii (l1 ++ l2) =
  string_of_list_ascii l1 ++ string_of_list_ascii l2.
Proof. induction l1 as [|c l1 IH]; simpl; [reflexivity | now rewrite IH]. Qed.

Lemma Ext_back_shape rpath : forall suffix,
  Forall (fun c => c <> "/"%char /\ c <> "."%char) suffix ->
  (Ext_back rpath suffix = "" /\
   exists dir base,
     (rev rpath ++ suffix)%list = (dir ++ base)%list /\
     Forall (fun c => c <> "/"%char /\ c <> "."%char) base /\
     (dir = [] \/ exists d, dir = (d ++ ["/"%char])%list)) \/
  exists pre rest,
    (rev rpath ++ suffix)%list = (pre ++ "."%char :: rest)%list /\
    Ext_back rpath suffix = string_of_list_ascii ("."%char :: rest) /\
    Forall (fun c => c <> "/"%char /\ c <> "."%char) rest.
Proof.
  induction rpath as [|c before IH]; intros suffix Hs; cbn [Ext_back].
  - left. split; [reflexivity|]. exists [], suffix. auto.
  - destruct (Ascii.eqb_spec c "/") as [->|Hslash].
    { left. split; [reflexivity|].
      exists (rev before ++ ["/"%char])%list, suffix. cbn [rev].
      repeat split; auto. right. now exists (rev before). }
    destruct (Ascii.eqb_spec c ".") as [->|Hdot].
    + right. exists (rev before), suffix. cbn [rev].
      rewrite <- app_assoc. repeat split; auto.
    + cbn [rev]. rewrite <- app_assoc. cbn [app].
      apply IH. constructor; auto.
Qed.

Lemma Ext_shape path :
  (Ext path = "" /\
   exists dir base,
     path = dir ++ base /\
     (forall c, In c (list_ascii_of_string base) ->
        c <> "/"%char /\ c <> "."%char) /\
     (dir = "" \/ exists d, dir = d ++ "/")) \/
  exists pre rest,
    path = pre ++ String "." rest /\ Ext path = String "." rest /\
    forall c, In c (list_ascii_of_string rest) -> c <> "/"%char /\ c <> "."%char.
Proof.
  unfold Ext.
  destruct (Ext_back_shape (rev (list_ascii_of_string path)) [])
    as [(H0 & dir & base & H1 & H2 & H3)|(pre & rest & H1 & H2 & H3)];
    [constructor | left | right]; rewrite rev_involutive, app_nil_r in H1.
  - split; [exact H0|].
    exists (string_of_list_ascii dir), (string_of_list_ascii base).
    split; [|split].
    + rewrite <- (string_of_list_ascii_of_string path), H1.
      now rewrite string_of_list_ascii_app.
    + intros c Hc. rewrite list_ascii_of_string_of_list_ascii in Hc.
      rewrite Forall_forall in H2. now apply H2.
    + destruct H3 as [->|[d ->]]; [now left|right].
      exists (string_of_list_ascii d). now rewrite string_of_list_ascii_app.
  - exists (string_of_list_ascii pre), (string_of_list_ascii rest).
    split; [|split].
    + rewrite <- (string_of_list_ascii_of_string path), H1.
      now rewrite string_of_list_ascii_app.
    + exact H2.
    + intros c Hc. rewrite list_ascii_of_string_of_list_ascii in Hc.
      rewrite Forall_forall in H3. now apply H3.
Qed.

(** X1. [Ext] splits the path at the last dot of its last element: the
    result starts at that dot and holds no further dot and no path
    separator; it is empty exactly when the last element (what follows
    the last separator) holds no dot. *)
Theorem Ext_is_last_dot_suffix path :
  (Ext path = "" /\
   exists dir base,
     path = dir ++ base /\
     (forall c, In c (list_ascii_of_string base) ->
        c <> "/"%char /\ c <> "."%char) /\
     (dir = "" \/ exists d, dir = d ++ "/")) \/
  exists pre rest,
    path = pre ++ String "." rest /\ Ext path = String "." rest /\
    forall c, In c (list_ascii_of_string rest) -> c <> "/"%char /\ c <> "."%char.
Proof. exact (Ext_shape path). Qed.

Lemma Ext_isLabel path : Ext path = "" \/ startsWithDot (Ext path).
Proof.
  destruct (Ext_shape path) as [[H _]|(pre & rest & _ & H & _)];
    [now left | right; now exists rest].
Qed.

Lemma classify_values lines :
  classify lines = "" \/ classify lines = no_extension_binary \/
  classify lines = no_extension_text.
Proof.
  rewrite classify_closed. destruct (firstn 10 lines); [now left|].
  destruct (existsb _ _); auto.
Qed.

Lemma aggregate_labels_ok e o s st :
  isLabel e -> labels_ok st -> labels_ok (aggregate e o s st).
Proof.
  intros He [Hf Hu]. unfold labels_ok, aggregate; simpl.
  rewrite addFileType_upsert, addUserInfo_upsert. split.
  - apply upsert_Forall; simpl; auto.
  - apply upsert_Forall; simpl; auto.
    intros u Hx. rewrite addExtension_upsert.
    apply upsert_Forall; simpl; auto.
Qed.

Lemma classify_isLabel lines : isLabel (classify lines).
Proof.
  unfold isLabel. destruct (classify_values lines) as [H|[H|H]]; rewrite H; auto.
Qed.

Lemma Main_walkFn_labels verboseEnabled st v st' :
  labels_ok st -> Main.walkFn verboseEnabled st v = Returned st' -> labels_ok st'.
Proof.
  intros HP. unfold Main.walkFn, Main.sampleContent.
  destruct (v_err v && negb verboseEnabled).
  { intros E; inversion E; subst; exact HP. }
  destruct (v_info v) as [info|]; [|discriminate].
  destruct (negb (IsDir info)); [|intros E; inversion E; subst; exact HP].
  assert (Hagg : forall e o,
            isLabel e ->
            labels_ok (aggregate e o (Size info)
                         (addCapacity (Size info) (countFile st)))).
  { intros e o He. now apply aggregate_labels_ok. }
  destruct (String.eqb_spec (Ext (v_path v)) "") as [E0|E0].
  - destruct (v_open v) as [lines|].
    + destruct (v_lookup v); [|destruct verboseEnabled];
        intros E; inversion E; subst;
        solve [apply Hagg, classify_isLabel | exact HP].
    + destruct verboseEnabled.
      * destruct (v_lookup v); intros E; inversion E; subst;
          apply Hagg; unfold isLabel; auto.
      * intros E; inversion E; subst; exact HP.
  - assert (Hl : isLabel (Ext (v_path v))).
    { destruct (Ext_isLabel (v_path v)); [contradiction | now left]. }
    destruct (v_lookup v); [|destruct verboseEnabled];
      intros E; inversion E; subst; solve [now apply Hagg | exact HP].
Qed.

(** ** More on the classifier *)

(** X3. Only the first ten lines count: the label of a file is the label
    of its first ten lines, whatever follows them, and it is always the
    empty string, the binary marker or the text marker. *)
Theorem classify_first_ten_lines lines :
  classify lines = classify (firstn 10 lines) /\
  (classify lines = "" \/ classify lines = no_extension_binary \/
   classify lines = no_extension_text).
Proof.
  split; [|apply classify_values].
  rewrite !classify_closed, firstn_firstn. reflexivity.
Qed.

(** X4. A label "binary" is never taken back: if a file is labelled
    binary, so is every file that starts with the same lines. *)
Theorem classify_binary_is_stable lines more :
  classify lines = no_extension_binary ->
  classify (lines ++ more) = no_extension_binary.
Proof.
  rewrite !classify_closed, firstn_app.
  destruct (firstn 10 lines) as [|l examined]; [discriminate|].
  cbn [app existsb]. rewrite existsb_app. unfold line in *.
  destruct (existsb outsidePrintable l); cbn [orb]; [reflexivity|].
  destruct (existsb (existsb outsidePrintable) examined); cbn [orb];
    [reflexivity | discriminate].
Qed.

Lemma classify_binary_is_stable_witness :
  classify ([[104; 105]; [0; 1]] ++ [[111; 107]]) = no_extension_binary.
Proof. exact (classify_binary_is_stable [[104; 105]; [0; 1]] [[111; 107]] eq_refl). Defined.

(** ** More on the aggregator *)

(** X5. In the variant with a logger every completed scan ends with the
    group sums equal to the run totals (in [int64] arithmetic): the file
    counts and the sizes of the extension groups, and those of the user
    groups, add up to [totalFilesCount] and [totalCapacity]. *)
Theorem logged_scan_sums_match_totals visits st :
  Logged.scan visits = Returned st ->
  sum64 (map ft_count (fileTypes st)) = totalFilesCount st /\
  sum64 (map ft_size (fileTypes st)) = totalCapacity st /\
  sum64 (map ui_count (users st)) = totalFilesCount st /\
  sum64 (map ui_size (users st)) = totalCapacity st.
Proof. apply Logged_scan_totals. Qed.

Lemma logged_scan_sums_match_totals_witness :
  exists st, Logged.scan sampleVisits = Returned st /\
    sum64 (map ft_size (fileTypes st)) = totalCapacity st /\
    totalCapacity st = 34.
Proof.
  destruct (Logged.scan sampleVisits) as [st|] eqn:E;
    [|vm_compute in E; discriminate E].
  exists st. split; [reflexivity|].
  split; [exact (proj1 (proj2 (logged_scan_sums_match_totals sampleVisits st E)))|].
  vm_compute in E. inversion E. reflexivity.
Defined.

Lemma Walk_ext f g visits : forall st,
  (forall v st', In v visits -> f st' v = g st' v) ->
  Walk f st visits = Walk g st visits.
Proof.
  induction visits as [|v rest IH]; intros st H; cbn [Walk]; [reflexivity|].
  rewrite (H v st) by now left.
  destruct (g st v); [|reflexivity].
  apply IH. intros v' st' Hin. apply H. now right.
Qed.

Lemma Main_verbose_walkFn_Logged st v :
  Main.walkFn true st v = Logged.walkFn st v.
Proof.
  unfold Main.walkFn, Logged.walkFn, Main.sampleContent, Logged.sampleContent.
  rewrite andb_false_r.
  destruct (v_info v) as [info|]; [|reflexivity].
  destruct (negb (IsDir info)); [|reflexivity].
  destruct (String.eqb (Ext (v_path v)) ""); [destruct (v_open v)|];
    destruct (v_lookup v); reflexivity.
Qed.

(** X6. With [-v], src/main.go ends every walk exactly as the older
    variant with a logger does: same outcome (returned or panicked), same
    groupings and same totals. *)
Theorem main_verbose_scan_is_logged_scan visits :
  Main.scan true visits = Logged.scan visits.
Proof.
  unfold Main.scan, Logged.scan. apply Walk_ext.
  intros; apply Main_verbose_walkFn_Logged.
Qed.

Lemma Main_quiet_walkFn_clean st v :
  cleanVisit v = true -> Main.walkFn false st v = Logged.walkFn st v.
Proof.
  unfold cleanVisit, Main.walkFn, Logged.walkFn, Main.sampleContent,
    Logged.sampleContent.
  destruct (v_err v); [discriminate|]. cbn [negb andb].
  destruct (v_info v) as [info|]; [|discriminate].
  destruct (IsDir info); cbn [negb orb]; [reflexivity|].
  destruct (v_lookup v); [|discriminate]. cbn [andb].
  destruct (String.eqb (Ext (v_path v)) ""); cbn [negb orb]; [|reflexivity].
  destruct (v_open v); [reflexivity | discriminate].
Qed.

(** X7. The flag [-v] does not change the result of a walk on which
    nothing fails (no traversal error, every owner lookup succeeds, every
    file without extension can be opened): src/main.go then ends in the
    same state with and without it. *)
Theorem verbosity_is_irrelevant_on_clean_walks visits :
  forallb cleanVisit visits = true ->
  Main.scan false visits = Main.scan true visits.
Proof.
  intros H. unfold Main.scan. apply Walk_ext.
  intros v st Hin. rewrite forallb_forall in H.
  rewrite Main_verbose_walkFn_Logged. now apply Main_quiet_walkFn_clean, H.
Qed.

Lemma verbosity_is_irrelevant_on_clean_walks_witness :
  Main.scan false [notes; notes] = Main.scan true [notes; notes].
Proof.
  exact (verbosity_is_irrelevant_on_clean_walks [notes; notes] eq_refl).
Defined.

Lemma aggregate_nested_consistent e o s st :
  nested_consistent st -> nested_consistent (aggregate e o s st).
Proof.
  intros [Hf Hu]. unfold nested_consistent, aggregate; simpl.
  rewrite addFileType_upsert, addUserInfo_upsert. split.
  - apply upsert_Forall; [| |exact Hf]; simpl.
    + intros t [H1 H2]. rewrite addUser_upsert.
      rewrite (upsert_sum64 _ _ _ ftu_count 1), (upsert_sum64 _ _ _ ftu_size s)
        by reflexivity.
      rewrite H1, H2. unfold Int64.add.
      now rewrite !Int64_wrap_add_l, !Int64_wrap_idem.
    + split; reflexivity.
  - apply upsert_Forall; [| |exact Hu]; simpl.
    + intros u [H1 H2]. rewrite addExtension_upsert.
      rewrite (upsert_sum64 _ _ _ uft_count 1), (upsert_sum64 _ _ _ uft_size s)
        by reflexivity.
      rewrite H1, H2. unfold Int64.add.
      now rewrite !Int64_wrap_add_l, !Int64_wrap_idem.
    + split; reflexivity.
Qed.

Lemma reachable_nested_consistent st : reachable st -> nested_consistent st.
Proof.
  induction 1; auto using aggregate_nested_consistent.
  split; constructor.
Qed.

(** X8. Inside every group the breakdown adds up to the group: on a
    completed scan of src/main.go the per-user counts and sizes stored in
    an extension group sum to the group's own count and size, and the
    per-extension counts and sizes stored in a user group sum to the
    user's ([int64] arithmetic; [Int64.wrap] leaves an [int64] as it
    is). *)
Theorem breakdown_sums_to_group verboseEnabled visits st :
  Main.scan verboseEnabled visits = Returned st ->
  Forall (fun t =>
            sum64 (map ftu_count (ft_users t)) = Int64.wrap (ft_count t) /\
            sum64 (map ftu_size (ft_users t)) = Int64.wrap (ft_size t))
         (fileTypes st) /\
  Forall (fun u =>
            sum64 (map uft_count (ui_filetypes u)) = Int64.wrap (ui_count u) /\
            sum64 (map uft_size (ui_filetypes u)) = Int64.wrap (ui_size u))
         (users st).
Proof.
  intros H. apply Main_scan_reachable in H.
  exact (reachable_nested_consistent st H).
Qed.

Lemma breakdown_sums_to_group_witness :
  Forall (fun t =>
            sum64 (map ftu_count (ft_users t)) = Int64.wrap (ft_count t) /\
            sum64 (map ftu_size (ft_users t)) = Int64.wrap (ft_size t))
         (fileTypes sampleState).
Proof.
  exact (proj1 (breakdown_sums_to_group true sampleVisits sampleState eq_refl)).
Defined.

(** X9. Groups are kept in the order in which they were first seen: an
    update neither removes nor reorders a group; a label (a user name)
    that is already there leaves the list of labels (of names) as it is,
    a new one is appended at the end. *)
Theorem groups_in_discovery_order e o s st :
  (In e (map ft_extension (fileTypes st)) /\
     map ft_extension (fileTypes (aggregate e o s st)) =
       map ft_extension (fileTypes st) \/
   ~ In e (map ft_extension (fileTypes st)) /\
     map ft_extension (fileTypes (aggregate e o s st)) =
       (map ft_extension (fileTypes st) ++ [e])%list) /\
  (In o (map ui_name (users st)) /\
     map ui_name (users (aggregate e o s st)) = map ui_name (users st) \/
   ~ In o (map ui_name (users st)) /\
     map ui_name (users (aggregate e o s st)) =
       (map ui_name (users st) ++ [o])%list).
Proof.
  unfold aggregate; simpl.
  rewrite addFileType_upsert, addUserInfo_upsert.
  rewrite (upsert_keys ft_extension e), (upsert_keys ui_name o) by reflexivity.
  split.
  - destruct (existsb _ (fileTypes st)) eqn:E.
    + left. split; [|reflexivity]. now apply existsb_hit_In in E.
    + right. split; [|reflexivity]. intros H.
      apply (existsb_hit_In ft_extension e) in H. congruence.
  - destruct (existsb _ (users st)) eqn:E.
    + left. split; [|reflexivity]. now apply existsb_hit_In in E.
    + right. split; [|reflexivity]. intros H.
      apply (existsb_hit_In ui_name o) in H. congruence.
Qed.

Lemma typeTotals_addFileType extension owner size fts e :
  typeTotals (addFileType extension owner size fts) e =
    if String.eqb e extension
    then Some (bump size (typeTotals fts e))
    else typeTotals fts e.
Proof.
  unfold typeTotals. rewrite addFileType_upsert.
  destruct (String.eqb_spec e extension) as [->|Hne].
  - rewrite (find_upsert_same ft_extension extension) by reflexivity.
    destruct (find _ fts); reflexivity.
  - rewrite (find_upsert_other ft_extension extension) by (reflexivity || exact Hne).
    reflexivity.
Qed.

Lemma userTotals_addUserInfo extension owner size us u :
  userTotals (addUserInfo extension owner size us) u =
    if String.eqb u owner
    then Some (bump size (userTotals us u))
    else userTotals us u.
Proof.
  unfold userTotals. rewrite addUserInfo_upsert.
  destruct (String.eqb_spec u owner) as [->|Hne].
  - rewrite (find_upsert_same ui_name owner) by reflexivity.
    destruct (find _ us); reflexivity.
  - rewrite (find_upsert_other ui_name owner) by (reflexivity || exact Hne).
    reflexivity.
Qed.

(** What one call of the callback does to the group of label [e]. *)
Lemma Main_walkFn_typeTotals verboseEnabled st v st' e :
  Main.walkFn verboseEnabled st v = Returned st' ->
  typeTotals (fileTypes st') e =
    if grouped verboseEnabled v &&
       String.eqb (if String.eqb (Ext (v_path v)) "" then contentLabel v
                   else Ext (v_path v)) e
    then Some (bump (visitSize v) (typeTotals (fileTypes st) e))
    else typeTotals (fileTypes st) e.
Proof.
  unfold Main.walkFn, Main.sampleContent, grouped, cleanVisit, visitIsFile,
    visitSize, contentLabel.
  destruct (v_err v); cbn [andb negb orb].
  - destruct verboseEnabled; cbn [andb negb orb].
    + destruct (v_info v) as [info|]; [|discriminate].
      destruct (IsDir info); cbn [andb negb orb];
        [intros E; inversion E; reflexivity|].
      destruct (String.eqb (Ext (v_path v)) ""); [destruct (v_open v)|];
        destruct (v_lookup v); intros E; inversion E; subst;
        cbn [fileTypes aggregate]; rewrite typeTotals_addFileType;
        rewrite (String.eqb_sym e); reflexivity.
    + intros E; inversion E; subst. rewrite andb_false_r. reflexivity.
  - destruct (v_info v) as [info|]; [|discriminate].
    destruct (IsDir info); cbn [andb negb orb];
      [intros E; inversion E; reflexivity|].
    destruct (String.eqb (Ext (v_path v)) ""); cbn [andb negb orb];
      [destruct (v_open v)|];
      destruct (v_lookup v); destruct verboseEnabled; cbn [andb negb orb];
      intros E; inversion E; subst;
      cbn [fileTypes aggregate countFile addCapacity];
      try rewrite typeTotals_addFileType;
      try rewrite (String.eqb_sym e); reflexivity.
Qed.

Lemma Main_Walk_typeTotals verboseEnabled e visits : forall st st',
  Walk (Main.walkFn verboseEnabled) st visits = Returned st' ->
  typeTotals (fileTypes st') e =
    tally (typeTotals (fileTypes st) e)
      (filter (fun v =>
                 grouped verboseEnabled v &&
                 String.eqb (if String.eqb (Ext (v_path v)) "" then contentLabel v
                             else Ext (v_path v)) e) visits).
Proof.
  induction visits as [|v rest IH]; intros st st'; cbn [Walk filter].
  - intros E; inversion E; reflexivity.
  - destruct (Main.walkFn verboseEnabled st v) as [st1|] eqn:E1; [|discriminate].
    intros E. rewrite (IH _ _ E).
    rewrite (Main_walkFn_typeTotals _ _ _ _ e E1).
    destruct (grouped verboseEnabled v && _); reflexivity.
Qed.

(** A label read off the content never looks like an extension. *)
Lemma contentLabel_no_dot v : ~ startsWithDot (contentLabel v).
Proof.
  unfold contentLabel. intros [rest H].
  destruct (v_open v) as [lines|]; [|discriminate].
  destruct (classify_values lines) as [E|[E|E]]; rewrite E in H; discriminate.
Qed.

(** X2. The labels of src/main.go and the files behind them.  On every
    completed scan each group label, at the top level and inside every
    user, is a real extension (it starts with a dot), one of the markers
    "no_extension_unknown_format", "no_extension_binary",
    "no_extension_text", or the empty string.  The group of an extension
    adds up exactly the files filed with that extension; the group of
    any other label adds up only files without extension, those whose
    content gives that label.  So a marker never stands for a file that
    has an extension: when every file of the walk has one, no marker
    group exists. *)
Theorem scan_labels verboseEnabled visits st :
  Main.scan verboseEnabled visits = Returned st ->
  Forall (fun t => isLabel (ft_extension t)) (fileTypes st) /\
  Forall (fun u => Forall (fun f => isLabel (uft_extension f)) (ui_filetypes u))
         (users st) /\
  (forall e, startsWithDot e ->
     typeTotals (fileTypes st) e =
       tally None
         (filter (fun v => grouped verboseEnabled v &&
                           String.eqb (Ext (v_path v)) e) visits)) /\
  (forall e, ~ startsWithDot e ->
     typeTotals (fileTypes st) e =
       tally None
         (filter (fun v => grouped verboseEnabled v &&
                           String.eqb (Ext (v_path v)) "" &&
                           String.eqb (contentLabel v) e) visits)) /\
  (Forall (fun v => visitIsFile v = true -> Ext (v_path v) <> "") visits ->
   forall e, ~ startsWithDot e -> typeTotals (fileTypes st) e = None).
Proof.
  unfold Main.scan. intros H.
  assert (Hdot : forall e, startsWithDot e ->
            typeTotals (fileTypes st) e =
              tally None
                (filter (fun v => grouped verboseEnabled v &&
                                  String.eqb (Ext (v_path v)) e) visits)).
  { intros e He. rewrite (Main_Walk_typeTotals _ e _ _ _ H).
    change (typeTotals (fileTypes initialState) e) with (@None (Z * Z)).
    f_equal. apply filter_ext. intros v. f_equal.
    destruct (String.eqb_spec (Ext (v_path v)) "") as [E0|E0]; [|reflexivity].
    rewrite E0.
    destruct (String.eqb_spec (contentLabel v) e) as [E1|E1].
    - exfalso. apply (contentLabel_no_dot v). now rewrite E1.
    - destruct (String.eqb_spec "" e) as [E2|E2]; [|reflexivity].
      exfalso. subst e. destruct He as [rest Hr]. discriminate. }
  assert (Hmark : forall e, ~ startsWithDot e ->
            typeTotals (fileTypes st) e =
              tally None
                (filter (fun v => grouped verboseEnabled v &&
                                  String.eqb (Ext (v_path v)) "" &&
                                  String.eqb (contentLabel v) e) visits)).
  { intros e He. rewrite (Main_Walk_typeTotals _ e _ _ _ H).
    change (typeTotals (fileTypes initialState) e) with (@None (Z * Z)).
    f_equal. apply filter_ext. intros v. rewrite <- andb_assoc. f_equal.
    destruct (String.eqb_spec (Ext (v_path v)) "") as [E0|E0]; [reflexivity|].
    cbn [andb]. destruct (String.eqb_spec (Ext (v_path v)) e) as [E1|E1];
      [|reflexivity].
    exfalso. apply He. rewrite <- E1.
    destruct (Ext_isLabel (v_path v)); [contradiction | assumption]. }
  split; [|split; [|split; [exact Hdot | split; [exact Hmark|]]]].
  - apply (Walk_invariant labels_ok (Main.walkFn verboseEnabled))
      with (visits := visits) (st := initialState); [| | exact H].
    + intros. eapply Main_walkFn_labels; eassumption.
    + split; constructor.
  - apply (Walk_invariant labels_ok (Main.walkFn verboseEnabled))
      with (visits := visits) (st := initialState); [| | exact H].
    + intros. eapply Main_walkFn_labels; eassumption.
    + split; constructor.
  - intros Hall e He. rewrite (Hmark e He).
    replace (filter _ visits) with (@nil visit); [reflexivity|].
    symmetry. clear - Hall. induction Hall as [|v rest Hv _ IH]; [reflexivity|].
    cbn [filter]. rewrite <- IH. unfold grouped.
    destruct (visitIsFile v); cbn [andb]; [|reflexivity].
    destruct (String.eqb_spec (Ext (v_path v)) "") as [E0|E0].
    + now destruct (Hv eq_refl).
    + rewrite andb_false_r. reflexivity.
Qed.

Lemma scan_labels_witness :
  typeTotals (fileTypes sampleState) ".txt" = Some (24, 3) /\
  typeTotals (fileTypes sampleState) no_extension_unknown_format = Some (10, 1) /\
  typeTotals (fileTypes sampleState) no_extension_text = None.
Proof.
  destruct (scan_labels true sampleVisits sampleState eq_refl)
    as (_ & _ & Hdot & Hmark & _).
  split; [|split].
  - rewrite (Hdot ".txt"); [reflexivity | now exists "txt"].
  - rewrite (Hmark no_extension_unknown_format); [reflexivity|].
    intros [rest Hr]; discriminate.
  - rewrite (Hmark no_extension_text); [reflexivity|].
    intros [rest Hr]; discriminate.
Defined.

(** X10. Lookup after update.  After a file of [s] bytes with extension
    [e] and owner [o] has been folded in, the entry of extension [e], the
    entry of user [o] and the two nested entries of the pair ([e], [o])
    hold one file and [s] bytes more than before (or exactly that file
    when they are new); every other entry is what it was. *)
Theorem lookup_after_aggregate e o s st e' u' :
  typeTotals (fileTypes (aggregate e o s st)) e' =
    (if String.eqb e' e then Some (bump s (typeTotals (fileTypes st) e'))
     else typeTotals (fileTypes st) e') /\
  userTotals (users (aggregate e o s st)) u' =
    (if String.eqb u' o then Some (bump s (userTotals (users st) u'))
     else userTotals (users st) u') /\
  extensionSide (fileTypes (aggregate e o s st)) e' u' =
    (if String.eqb e' e && String.eqb u' o
     then Some (bump s (extensionSide (fileTypes st) e' u'))
     else extensionSide (fileTypes st) e' u') /\
  userSide (users (aggregate e o s st)) u' e' =
    (if String.eqb e' e && String.eqb u' o
     then Some (bump s (userSide (users st) u' e'))
     else userSide (users st) u' e').
Proof.
  unfold aggregate; simpl.
  rewrite typeTotals_addFileType, userTotals_addUserInfo,
    extensionSide_addFileType, userSide_addUserInfo.
  repeat split.
Qed.

Lemma Int64_add_swap a s1 s2 :
  Int64.add (Int64.add a s1) s2 = Int64.add (Int64.add a s2) s1.
Proof.
  unfold Int64.add. rewrite !Int64_wrap_add_l. f_equal. lia.
Qed.

Lemma bump_swap s1 s2 x :
  bump s2 (Some (bump s1 x)) = bump s1 (Some (bump s2 x)).
Proof.
  destruct x as [[a c]|]; simpl.
  - f_equal; apply Int64_add_swap.
  - f_equal. unfold Int64.add. f_equal. lia.
Qed.

(** X11. Folding two files in is independent of their order: whichever
    of the two is aggregated first, every extension entry, every user
    entry and every nested entry ends with the same size and count (only
    the position of new groups in the lists can differ). *)
Theorem aggregate_order_independent e1 o1 s1 e2 o2 s2 st e u :
  let a := aggregate e2 o2 s2 (aggregate e1 o1 s1 st) in
  let b := aggregate e1 o1 s1 (aggregate e2 o2 s2 st) in
  typeTotals (fileTypes a) e = typeTotals (fileTypes b) e /\
  userTotals (users a) u = userTotals (users b) u /\
  extensionSide (fileTypes a) e u = extensionSide (fileTypes b) e u /\
  userSide (users a) u e = userSide (users b) u e.
Proof.
  unfold aggregate; simpl.
  rewrite !typeTotals_addFileType, !userTotals_addUserInfo,
    !extensionSide_addFileType, !userSide_addUserInfo.
  repeat split.
  - destruct (String.eqb e e2), (String.eqb e e1);
      try reflexivity. now rewrite bump_swap.
  - destruct (String.eqb u o2), (String.eqb u o1);
      try reflexivity. now rewrite bump_swap.
  - destruct (String.eqb e e2 && String.eqb u o2),
             (String.eqb e e1 && String.eqb u o1);
      try reflexivity. now rewrite bump_swap.
  - destruct (String.eqb e e2 && String.eqb u o2),
             (String.eqb e e1 && String.eqb u o1);
      try reflexivity. now rewrite bump_swap.
Qed.

(** X12. No group is empty: on a completed scan of src/main.go over
    fewer than 2^63 entries every count stored in the groupings, nested
    ones included, is at least 1 and at most the number of entries
    visited, so the report never divides by a zero [fileCount]. *)
Theorem groups_hold_at_least_one_file verboseEnabled visits st :
  Z.of_nat (List.length visits) < 2 ^ 63 ->
  Main.scan verboseEnabled visits = Returned st ->
  Forall (fun t => 1 <= ft_count t <= Z.of_nat (List.length visits) /\
                   Forall (fun x => 1 <= ftu_count x <= Z.of_nat (List.length visits))
                          (ft_users t))
         (fileTypes st) /\
  Forall (fun u => 1 <= ui_count u <= Z.of_nat (List.length visits) /\
                   Forall (fun f => 1 <= uft_count f <= Z.of_nat (List.length visits))
                          (ui_filetypes u))
         (users st).
Proof. intros Hb H. exact (Main_groups_never_empty verboseEnabled visits st Hb H). Qed.

Lemma groups_hold_at_least_one_file_witness :
  Forall (fun t => 1 <= ft_count t <= 5 /\
                   Forall (fun x => 1 <= ftu_count x <= 5) (ft_users t))
         (fileTypes sampleState).
Proof.
  exact (proj1 (groups_hold_at_least_one_file true sampleVisits sampleState
                  eq_refl eq_refl)).
Defined.

(** ** More on the single-threaded walks *)

Lemma Logged_walkFn_cases st v :
  match v_info v with
  | None => Logged.walkFn st v = Panicked
  | Some info =>
      exists st', Logged.walkFn st v = Returned st' /\
        totalFilesCount st' =
          (if IsDir info then totalFilesCount st
           else Int64.add (totalFilesCount st) 1) /\
        totalCapacity st' =
          (if IsDir info then totalCapacity st
           else Int64.add (totalCapacity st) (Size info)) /\
        totalDirectoriesCount st' =
          (if IsDir info then Int64.add (totalDirectoriesCount st) 1
           else totalDirectoriesCount st)
  end.
Proof.
  unfold Logged.walkFn. destruct (v_info v) as [info|]; [|reflexivity].
  destruct (IsDir info); cbn [negb]; eexists; split; try reflexivity;
    simpl; repeat split.
Qed.

Lemma Logged_Walk_counters visits : forall st0 a b c st,
  totalFilesCount st0 = Int64.wrap a ->
  totalCapacity st0 = Int64.wrap b ->
  totalDirectoriesCount st0 = Int64.wrap c ->
  Walk Logged.walkFn st0 visits = Returned st ->
  totalFilesCount st =
    Int64.wrap (a + Z.of_nat (List.length (filter visitIsFile visits))) /\
  totalCapacity st =
    Int64.wrap (b + sumZ (map visitSize (filter visitIsFile visits))) /\
  totalDirectoriesCount st =
    Int64.wrap (c + Z.of_nat (List.length (filter visitIsDir visits))) /\
  (List.length (filter visitIsFile visits)
   + List.length (filter visitIsDir visits) = List.length visits)%nat.
Proof.
  induction visits as [|v rest IH]; intros st0 a b c st Ha Hb Hc HW.
  - simpl in HW. inversion HW; subst. cbn [filter map sumZ fold_right List.length].
    rewrite !Z.add_0_r. auto.
  - cbn [Walk] in HW. pose proof (Logged_walkFn_cases st0 v) as Hv.
    unfold visitIsFile, visitIsDir, visitSize in *. cbn [filter].
    destruct (v_info v) as [info|] eqn:Ei.
    + destruct Hv as (st1 & E & H1 & H2 & H3). rewrite E in HW.
      destruct (IsDir info); cbn [negb] in *.
      * specialize (IH st1 a b (c + 1) st).
        rewrite H1, H2, H3, Hc in IH. unfold Int64.add in IH.
        rewrite Int64_wrap_add_l in IH.
        destruct (IH Ha Hb eq_refl HW) as (I1 & I2 & I3 & I4).
        cbn [List.length]. repeat split; try assumption.
        -- rewrite I3. f_equal. lia.
        -- lia.
      * specialize (IH st1 (a + 1) (b + Size info) c st).
        rewrite H1, H2, H3, Ha, Hb in IH. unfold Int64.add in IH.
        rewrite !Int64_wrap_add_l in IH.
        destruct (IH eq_refl eq_refl Hc HW) as (I1 & I2 & I3 & I4).
        cbn [List.length map sumZ fold_right]. rewrite Ei.
        repeat split; try assumption.
        -- rewrite I1. f_equal. lia.
        -- rewrite I2. unfold sumZ. f_equal. lia.
        -- lia.
    + rewrite Hv in HW. discriminate.
Qed.

(** X13. Every entry is counted once.  On a completed scan of the
    variant with a logger each visited entry is either a file or a
    directory; [totalFilesCount] is the number of files,
    [totalDirectoriesCount] the number of directories (the root
    included) and [totalCapacity] the sum of the files' sizes, all in
    [int64] arithmetic. *)
Theorem logged_scan_counters visits st :
  Logged.scan visits = Returned st ->
  totalFilesCount st =
    Int64.wrap (Z.of_nat (List.length (filter visitIsFile visits))) /\
  totalCapacity st =
    Int64.wrap (sumZ (map visitSize (filter visitIsFile visits))) /\
  totalDirectoriesCount st =
    Int64.wrap (Z.of_nat (List.length (filter visitIsDir visits))) /\
  (List.length (filter visitIsFile visits)
   + List.length (filter visitIsDir visits) = List.length visits)%nat.
Proof.
  intros H.
  exact (Logged_Walk_counters visits initialState 0 0 0 st
           eq_refl eq_refl eq_refl H).
Qed.

Lemma logged_scan_counters_witness :
  exists st, Logged.scan sampleVisits = Returned st /\
    totalFilesCount st = 4 /\ totalDirectoriesCount st = 1.
Proof.
  destruct (Logged.scan sampleVisits) as [st|] eqn:E;
    [|vm_compute in E; discriminate E].
  exists st. split; [reflexivity|].
  destruct (logged_scan_counters sampleVisits st E) as (H1 & _ & H3 & _).
  rewrite H1, H3. split; reflexivity.
Defined.

Lemma Logged_Walk_panics visits : forall st,
  Walk Logged.walkFn st visits = Panicked <->
  exists v, In v visits /\ v_info v = None.
Proof.
  induction visits as [|v rest IH]; intros st; cbn [Walk].
  - split; [discriminate | intros [v [[] _]]].
  - pose proof (Logged_walkFn_cases st v) as Hv.
    destruct (v_info v) as [info|] eqn:Ei.
    + destruct Hv as (st1 & E & _). rewrite E, IH.
      split; intros [x [Hin Hx]]; exists x.
      * split; [now right | exact Hx].
      * split; [|exact Hx]. destruct Hin as [->|Hin]; [congruence | exact Hin].
    + rewrite Hv. split; [|reflexivity]. intros _. exists v. split; [now left|exact Ei].
Qed.

(** X14. The variant with a logger dies exactly on a nil [info]: its scan
    panics if and only if some visit of the walk comes without an
    [info] (Walk could not Lstat the entry); on every other walk it
    runs to completion. *)
Theorem logged_scan_panics_iff_nil_info visits :
  Logged.scan visits = Panicked <-> exists v, In v visits /\ v_info v = None.
Proof. apply Logged_Walk_panics. Qed.

Lemma logged_scan_panics_iff_nil_info_witness :
  Logged.scan [notes; vanished; notes] = Panicked.
Proof.
  apply (proj2 (logged_scan_panics_iff_nil_info [notes; vanished; notes])).
  exists vanished. split; [simpl; tauto | reflexivity].
Defined.

(** X15. Without [-v], src/main.go leaves out an entry that Walk reports
    with an error: wherever it stands in the walk, the scan ends as the
    scan without that entry. *)
Theorem main_quiet_scan_skips_errors before v after :
  v_err v = true ->
  Main.scan false (before ++ v :: after) = Main.scan false (before ++ after).
Proof.
  intros H. unfold Main.scan. rewrite !Walk_app.
  destruct (Walk (Main.walkFn false) initialState before) as [st|];
    [|reflexivity].
  cbn [Walk]. now rewrite Main_quiet_walkFn_error.
Qed.

Lemma main_quiet_scan_skips_errors_witness :
  Main.scan false ([notes] ++ vanished :: [notes]) = Main.scan false ([notes] ++ [notes]).
Proof. exact (main_quiet_scan_skips_errors [notes] vanished [notes] eq_refl). Defined.

(** ** More on the worker pool *)

(** X16. The totals of the pool variant with the guarded average.  With
    any number of workers under any schedule, the scan dies only on an
    entry that comes with neither an error nor an [info], and otherwise
    [totalDirectories] is the number of directories that come without an
    error.  With a single worker, [totalFileCount] is the number of
    entries sent to the workers (no error, not a directory) and
    [totalCapacity] the sum of what [processFile] returns for them, all
    modulo 2^64.  With two workers an update can be lost: when both read
    [totalFileCount] before either writes it back, two files are
    counted as one. *)
Theorem pool_scan_totals entries :
  (forall workers schedule,
     if forallb poolSurvives entries then
       exists st, Pool.scan workers schedule entries = Returned st /\
         totalDirectories st =
           Uint64.wrap (Z.of_nat (List.length (filter poolCountsDir entries)))
     else Pool.scan workers schedule entries = Panicked) /\
  (forall schedule,
     Pool.scan 1 schedule entries =
     if forallb poolSurvives entries then
       Returned
         {| files := [];
            totalFileCount :=
              Uint64.wrap (Z.of_nat (List.length (filter poolSends entries)));
            poolCapacity :=
              Uint64.wrap (sumZ (map (fun e => fst (processFile e))
                                     (filter poolSends entries)));
            totalDirectories :=
              Uint64.wrap (Z.of_nat (List.length (filter poolCountsDir entries))) |}
     else Panicked) /\
  Pool.scan 2 [0; 1; 0; 1; 0; 1]%nat [fileEntry; fileEntry] =
    Returned {| files := []; totalFileCount := 1; poolCapacity := 14;
                totalDirectories := 0 |}.
Proof.
  split; [|split].
  - intros workers schedule. rewrite Pool_scan_walk.
    destruct (forallb poolSurvives entries); [|reflexivity].
    eexists. split; [reflexivity|]. now rewrite drain_directories.
  - intros schedule. apply Pool_scan_closed.
  - vm_compute. reflexivity.
Qed.

Lemma Permutation_forallb {A : Type} (p : A -> bool) l l' :
  Permutation l l' -> forallb p l = forallb p l'.
Proof.
  induction 1; simpl; try congruence.
  destruct (p x), (p y); reflexivity.
Qed.

Lemma Permutation_filter_length {A : Type} (p : A -> bool) l l' :
  Permutation l l' -> List.length (filter p l) = List.length (filter p l').
Proof.
  induction 1; simpl; try congruence.
  - destruct (p x); simpl; congruence.
  - destruct (p x), (p y); reflexivity.
Qed.

Lemma Permutation_filter_sum {A : Type} (p : A -> bool) (f : A -> Z) l l' :
  Permutation l l' ->
  sumZ (map f (filter p l)) = sumZ (map f (filter p l')).
Proof.
  induction 1; simpl; try congruence.
  - destruct (p x); simpl; congruence.
  - destruct (p x), (p y); simpl; lia.
Qed.

(** X17. With a single worker the totals of the pool do not depend on
    the order in which the entries are met, nor on the schedule: two
    walks over the same entries in different orders end in the same
    state (or both die).  With two workers the end state depends on the
    schedule, the entries being the same. *)
Theorem pool_scan_order_independent schedule schedule' entries entries' :
  Permutation entries entries' ->
  Pool.scan 1 schedule entries = Pool.scan 1 schedule' entries' /\
  Pool.scan 2 [] [fileEntry; fileEntry] <>
    Pool.scan 2 [0; 1; 0; 1; 0; 1]%nat [fileEntry; fileEntry].
Proof.
  intros H. split.
  - rewrite !Pool_scan_closed.
    rewrite (Permutation_forallb _ _ _ H), (Permutation_filter_length _ _ _ H),
      (Permutation_filter_length poolCountsDir _ _ H),
      (Permutation_filter_sum _ _ _ _ H).
    reflexivity.
  - vm_compute. discriminate.
Qed.

Lemma pool_scan_order_independent_witness :
  Pool.scan 1 [0; 0; 0]%nat [dirEntry; fileEntry; linkEntry] =
  Pool.scan 1 [] [dirEntry; linkEntry; fileEntry].
Proof.
  refine (proj1 (pool_scan_order_independent [0; 0; 0]%nat []
                   [dirEntry; fileEntry; linkEntry]
                   [dirEntry; linkEntry; fileEntry] _)).
  constructor. apply perm_swap.
Defined.

(** X18. The pool variant with the guarded average leaves out an entry
    that Walk reports with an error: wherever it stands in the walk, and
    with any number of workers under any schedule, the scan ends as the
    scan without that entry. *)
Theorem pool_scan_skips_errors workers schedule before e after :
  e_err e = true ->
  Pool.scan workers schedule (before ++ e :: after) =
  Pool.scan workers schedule (before ++ after).
Proof.
  intros H. rewrite !Pool_scan_walk.
  assert (H1 : poolSurvives e = true) by (unfold poolSurvives; now rewrite H).
  assert (H2 : poolSends e = false) by (unfold poolSends; now rewrite H).
  assert (H3 : poolCountsDir e = false) by (unfold poolCountsDir; now rewrite H).
  rewrite !forallb_app, !filter_app. cbn [forallb filter].
  rewrite H1, H2, H3. reflexivity.
Qed.

Lemma pool_scan_skips_errors_witness :
  Pool.scan 4 [0; 1; 2; 0]%nat ([fileEntry] ++ vanishedEntry :: [dirEntry]) =
  Pool.scan 4 [0; 1; 2; 0]%nat ([fileEntry] ++ [dirEntry]).
Proof.
  exact (pool_scan_skips_errors 4 [0; 1; 2; 0]%nat [fileEntry] vanishedEntry
           [dirEntry] eq_refl).
Defined.

Lemma prefix_trans a : forall b c,
  String.prefix a b = true -> String.prefix b c = true -> String.prefix a c = true.
Proof.
  induction a as [|x a IH]; intros b c Hab Hbc; [now destruct c|].
  destruct b as [|y b]; [discriminate|].
  destruct c as [|z c]; [discriminate|].
  simpl in *.
  destruct (ascii_dec x y) as [->|]; [|discriminate].
  destruct (ascii_dec y z) as [->|]; [|discriminate].
  eapply IH; eassumption.
Qed.

Lemma prefix_append a b : String.prefix a (a ++ b) = true.
Proof.
  induction a as [|x a IH]; simpl; [now destruct b|].
  destruct (ascii_dec x x); [exact IH | congruence].
Qed.

Lemma WalkPool_all_skipped fn skipped st inside after :
  Forall (fun x => existsb (fun dir => String.prefix (dir ++ "/") (e_path x))
                     skipped = true) inside ->
  WalkPool fn skipped st (inside ++ after) = WalkPool fn skipped st after.
Proof.
  induction 1 as [|x inside Hx _ IH]; cbn [app WalkPool]; [reflexivity|].
  now rewrite Hx.
Qed.

Lemma WalkPool_skip_contents skipped st dir info inside after :
  e_info dir = Some info -> IsDir info = true ->
  e_path dir = "/proc" \/ e_path dir = "/run" ->
  Forall (fun x => String.prefix (e_path dir ++ "/") (e_path x) = true) inside ->
  WalkPool PoolProc.walkFn skipped st (dir :: inside ++ after) =
  WalkPool PoolProc.walkFn skipped st (dir :: after).
Proof.
  intros Hi Hd Hp Hin. cbn [WalkPool].
  destruct (existsb _ skipped) eqn:E.
  - apply WalkPool_all_skipped.
    apply existsb_exists in E. destruct E as [d [Hd1 Hd2]].
    eapply Forall_impl; [|exact Hin]. intros x Hx.
    apply existsb_exists. exists d. split; [exact Hd1|].
    eapply prefix_trans; [exact Hd2|].
    eapply prefix_trans; [apply prefix_append | exact Hx].
  - assert (Hf : PoolProc.walkFn st dir = Returned (SkipDir, st)).
    { unfold PoolProc.walkFn. rewrite Hi, Hd.
      destruct Hp as [-> | ->]; reflexivity. }
    rewrite Hf. apply WalkPool_all_skipped.
    eapply Forall_impl; [|exact Hin]. intros x Hx.
    cbn [existsb]. now rewrite Hx.
Qed.

(** X19. The skip rule of the other pool variant.  When the walk meets
    the directory /proc or /run, the entries below it never reach the
    callback: with any number of workers under any schedule, the scan
    ends as the scan of the tree without them (so a nil [info] among
    them cannot kill it), and the skipped directory itself is not
    counted. *)
Theorem proc_and_run_are_skipped workers schedule before dir info inside after :
  e_info dir = Some info -> IsDir info = true ->
  e_path dir = "/proc" \/ e_path dir = "/run" ->
  Forall (fun x => String.prefix (e_path dir ++ "/") (e_path x) = true) inside ->
  PoolProc.scan workers schedule (before ++ dir :: inside ++ after) =
    PoolProc.scan workers schedule (before ++ dir :: after) /\
  forall st, PoolProc.walkFn st dir = Returned (SkipDir, st).
Proof.
  intros Hi Hd Hp Hin. split.
  - unfold PoolProc.scan.
    assert (H : forall skipped st,
               WalkPool PoolProc.walkFn skipped st (before ++ dir :: inside ++ after) =
               WalkPool PoolProc.walkFn skipped st (before ++ dir :: after)).
    { induction before as [|x before IH]; intros skipped st.
      - now apply (WalkPool_skip_contents skipped st dir info).
      - cbn [app WalkPool].
        destruct (existsb _ skipped); [apply IH|].
        destruct (PoolProc.walkFn st x) as [[[|] st']|]; [apply IH | apply IH | reflexivity]. }
    now rewrite H.
  - intros st. unfold PoolProc.walkFn. rewrite Hi, Hd.
    destruct Hp as [-> | ->]; reflexivity.
Qed.

Lemma proc_and_run_are_skipped_witness :
  PoolProc.scan 2 [0; 1; 1]%nat ([dirEntry] ++ procEntry :: [procChild] ++ [fileEntry]) =
  PoolProc.scan 2 [0; 1; 1]%nat ([dirEntry] ++ procEntry :: [fileEntry]).
Proof.
  refine (proj1 (proc_and_run_are_skipped 2 [0; 1; 1]%nat [dirEntry] procEntry
                   (directory 0) [procChild] [fileEntry] eq_refl eq_refl
                   (or_introl eq_refl) _)).
  repeat constructor.
Defined.

(** ** More on the formatters and the report *)

(** X20. [formatSize] never panics: for every [uint64] it returns a
    string; the loop ends through its guard and the index into "KMGTPE"
    stays in range. *)
Theorem formatSize_never_panics size :
  0 <= size < 2 ^ 64 -> exists s, formatSize size = Returned s.
Proof. apply formatSize_returns. Qed.

Lemma formatSize_never_panics_witness :
  exists s, formatSize (2 ^ 64 - 1) = Returned s.
Proof.
  apply formatSize_never_panics.
  split; [vm_compute; discriminate | reflexivity].
Defined.

Lemma pow1024_small e :
  0 <= e -> 1024 ^ e < 2 ^ 64 -> e <= 6.
Proof.
  intros He H. destruct (Z_le_gt_dec e 6) as [|Hgt]; [assumption|exfalso].
  assert (1024 ^ 7 <= 1024 ^ e) by (apply Z.pow_le_mono_r; lia).
  change (1024 ^ 7) with 1180591620717411303424 in *.
  change (2 ^ 64) with 18446744073709551616 in *. lia.
Qed.

Lemma formatSizeLoop_invariant fuel : forall n div exp size,
  0 <= exp -> div = 1024 ^ (exp + 1) -> n = size / div -> 1 <= n ->
  size < 2 ^ 64 ->
  let '(n', div', exp') := formatSizeLoop fuel n div exp in
  div' = 1024 ^ (exp' + 1) /\ n' = size / div' /\ 1 <= n' /\ exp <= exp'.
Proof.
  induction fuel as [|fuel IH]; intros n div exp size He Hd Hn H1 Hs;
    cbn [formatSizeLoop].
  - repeat split; auto; lia.
  - destruct (Z.geb_spec n 1024) as [Hge|Hlt]; [|repeat split; auto; lia].
    assert (Hpos : 0 < div) by (subst div; apply Z.pow_pos_nonneg; lia).
    assert (Hle : 1024 * div <= size).
    { subst n. pose proof (Z.mul_div_le size div Hpos). nia. }
    assert (Hpow : 1024 ^ (exp + 1 + 1) = 1024 * div).
    { subst div. replace (exp + 1 + 1) with (Z.succ (exp + 1)) by lia.
      rewrite Z.pow_succ_r by lia. reflexivity. }
    assert (He6 : exp + 1 + 1 <= 6).
    { apply pow1024_small; [lia|]. rewrite Hpow. lia. }
    assert (Hmul : Int64.mul div 1024 = 1024 ^ (exp + 1 + 1)).
    { unfold Int64.mul. rewrite Int64_wrap_small; [rewrite Hpow; lia|].
      unfold Int64.in_range, Int64.half.
      assert (1024 ^ (exp + 1 + 1) <= 1024 ^ 6) by (apply Z.pow_le_mono_r; lia).
      change (1024 ^ 6) with 1152921504606846976 in *.
      change (2 ^ 63) with 9223372036854775808. lia. }
    specialize (IH (n / 1024) (Int64.mul div 1024) (exp + 1) size).
    destruct (formatSizeLoop fuel (n / 1024) (Int64.mul div 1024) (exp + 1))
      as [[n' div'] exp'].
    assert (Hn' : n / 1024 = size / Int64.mul div 1024).
    { rewrite Hmul, Hpow, Hn, (Z.mul_comm 1024 div).
      rewrite Z.div_div by lia. reflexivity. }
    assert (H1' : 1 <= n / 1024) by (apply Z.div_le_lower_bound; lia).
    destruct (IH ltac:(lia) Hmul Hn' H1' Hs) as (I1 & I2 & I3 & I4).
    repeat split; auto; lia.
Qed.

Lemma float64_of_pow1024 exp :
  0 <= exp <= 5 -> float64_of (1024 ^ (exp + 1)) = 1024 ^ (exp + 1).
Proof.
  intros H.
  assert (E : exp = 0 \/ exp = 1 \/ exp = 2 \/ exp = 3 \/ exp = 4 \/ exp = 5) by lia.
  destruct E as [->|[->|[->|[->|[->| ->]]]]]; reflexivity.
Qed.

(** X21. [formatSize] picks the unit by magnitude: for a [uint64] of at
    least 1024 the loop stops at the exponent [exp] (0 for Ki up to 5 for
    Ei) with [1024^(exp+1) <= size < 1024^(exp+2)], and the number
    printed is [size / 1024^(exp+1)] with one decimal, followed by the
    [exp]-th letter of "KMGTPE" and "iB". *)
Theorem formatSize_unit_by_magnitude size :
  1024 <= size < 2 ^ 64 ->
  exists exp c,
    0 <= exp <= 5 /\
    1024 ^ (exp + 1) <= size < 1024 ^ (exp + 2) /\
    byteAt "KMGTPE" exp = Returned c /\
    formatSize size =
      Returned (Sprintf_f 1 (float64_of size) (1024 ^ (exp + 1))
                  ++ " " ++ String c "iB").
Proof.
  intros [Hlo Hhi]. unfold formatSize.
  destruct (Z.ltb_spec size 1024) as [|_]; [lia|].
  pose proof (formatSizeLoop_exits 7 5 (size / 1024) 1024 0 ltac:(lia)) as Hx.
  pose proof (formatSizeLoop_invariant 7 (size / 1024) 1024 0 size
                ltac:(lia) eq_refl eq_refl) as Hi.
  assert (Hn : 0 <= size / 1024 < 1024 ^ (Z.of_nat 5 + 1)).
  { split; [apply Z.div_pos; lia|].
    apply Z.div_lt_upper_bound; [lia|].
    change (1024 * 1024 ^ (Z.of_nat 5 + 1)) with 1180591620717411303424.
    change (2 ^ 64) with 18446744073709551616 in Hhi. lia. }
  assert (H1 : 1 <= size / 1024) by (apply Z.div_le_lower_bound; lia).
  specialize (Hx Hn). specialize (Hi H1 Hhi).
  destruct (formatSizeLoop 7 (size / 1024) 1024 0) as [[n' div'] exp'].
  destruct Hx as [Hn' Hexp]. destruct Hi as (Hd & Hq & Hn1 & _).
  change (Z.of_nat 5) with 5 in Hexp.
  destruct (byteAt_KMGTPE exp' ltac:(lia)) as [c Hc].
  exists exp', c. rewrite Hc, Hd, float64_of_pow1024 by lia.
  assert (Hpos : 0 < 1024 ^ (exp' + 1)) by (apply Z.pow_pos_nonneg; lia).
  repeat split; try lia; try assumption.
  - subst n' div'. pose proof (Z.mul_div_le size _ Hpos). nia.
  - subst n' div'.
    replace (exp' + 2) with (Z.succ (exp' + 1)) by lia.
    rewrite Z.pow_succ_r by lia.
    pose proof (Z.mul_succ_div_gt size _ Hpos). nia.
Qed.

Lemma formatSize_unit_by_magnitude_witness :
  exists exp c,
    1024 ^ (exp + 1) <= 5368709120 < 1024 ^ (exp + 2) /\
    byteAt "KMGTPE" exp = Returned c.
Proof.
  destruct (formatSize_unit_by_magnitude 5368709120
              ltac:(split; [vm_compute; discriminate | reflexivity]))
    as (exp & c & _ & H1 & H2 & _).
  now exists exp, c.
Defined.

Lemma avgFileSize_in_range c n :
  Uint64.in_range c -> Uint64.in_range n ->
  Uint64.in_range (Pool.avgFileSize c n) /\ Pool.avgFileSize c n <= c.
Proof.
  unfold Uint64.in_range, Pool.avgFileSize. intros Hc Hn.
  destruct (Z.gtb_spec n 0) as [Hpos|_]; [|lia].
  assert (0 <= c / n) by (apply Z.div_pos; lia).
  assert (c / n <= c) by (apply Z.div_le_upper_bound; nia).
  lia.
Qed.

(** X22. The closing report of the pool variant with the guard never
    panics: after every completed scan, with any number of workers
    under any schedule, the average is at most the total capacity and it
    is printed, also when no file was found. *)
Theorem pool_report_never_panics workers schedule entries st :
  Pool.scan workers schedule entries = Returned st ->
  Pool.avgFileSize (poolCapacity st) (totalFileCount st) <= poolCapacity st /\
  exists s, Pool.averageReport st = Returned s.
Proof.
  rewrite Pool_scan_walk. destruct (forallb poolSurvives entries); [|discriminate].
  intros H. inversion H as [Hst]; clear H.
  match type of Hst with drain _ _ ?s0 = _ =>
    destruct (drain_in_range workers schedule s0) as [Hn Hc];
      [apply Uint64_in_range_0 | apply Uint64_in_range_0 |]
  end.
  rewrite Hst in Hn, Hc |- *.
  unfold Pool.averageReport.
  destruct (avgFileSize_in_range _ _ Hc Hn) as [Hr Hle].
  split; [exact Hle | now apply formatSize_returns].
Qed.

Lemma pool_report_never_panics_witness :
  exists s, Pool.averageReport
              {| files := []; totalFileCount := 2; poolCapacity := 14;
                 totalDirectories := 1 |} = Returned s.
Proof.
  exact (proj2 (pool_report_never_panics 2 [1; 1; 1]%nat
                  [dirEntry; fileEntry; fileEntry] _ eq_refl)).
Defined.

Lemma WalkPool_PoolProc_counters entries : forall skipped st0 st,
  WalkPool PoolProc.walkFn skipped st0 entries = Returned st ->
  totalFileCount st = totalFileCount st0 /\ poolCapacity st = poolCapacity st0.
Proof.
  induction entries as [|e rest IH]; intros skipped st0 st; cbn [WalkPool].
  - intros H; inversion H; subst; auto.
  - destruct (existsb _ skipped); [apply IH|].
    unfold PoolProc.walkFn.
    destruct (e_info e) as [info|]; [|discriminate].
    destruct (IsDir info && String.eqb (e_path e) "/proc"); [apply IH|].
    destruct (IsDir info && String.eqb (e_path e) "/run"); [apply IH|].
    destruct (negb (IsDir info)); intros H; apply IH in H; exact H.
Qed.

(** X23. The closing report of the pool variant that skips /proc panics
    exactly when no file was counted: after a completed scan, with any
    number of workers under any schedule, the unguarded division dies
    if and only if [totalFileCount] is zero, and in every other case the
    average is printed. *)
Theorem poolproc_report_panics_iff_no_file workers schedule entries st :
  PoolProc.scan workers schedule entries = Returned st ->
  (PoolProc.averageReport st = Panicked <-> totalFileCount st = 0) /\
  (totalFileCount st <> 0 -> exists s, PoolProc.averageReport st = Returned s).
Proof.
  unfold PoolProc.scan.
  destruct (WalkPool PoolProc.walkFn [] poolStart entries) as [st0|] eqn:E;
    [|discriminate].
  apply WalkPool_PoolProc_counters in E. destruct E as [E1 E2].
  intros H; inversion H as [Hst]; clear H.
  destruct (drain_in_range workers schedule st0) as [Hn Hc];
    [rewrite E1; apply Uint64_in_range_0 | rewrite E2; apply Uint64_in_range_0 |].
  rewrite Hst in Hn, Hc |- *. clear Hst E1 E2.
  set (n := totalFileCount st) in *. set (c := poolCapacity st) in *.
  unfold PoolProc.averageReport, PoolProc.divide. fold n c.
  assert (Hret : n <> 0 -> exists s, formatSize (c / n) = Returned s).
  { intros Hne. apply formatSize_returns.
    unfold Uint64.in_range in *.
    assert (0 <= c / n) by (apply Z.div_pos; lia).
    assert (c / n <= c) by (apply Z.div_le_upper_bound; nia).
    lia. }
  destruct (Z.eqb_spec n 0) as [Hz|Hnz].
  - split; [tauto | contradiction].
  - split; [|intros _; now apply Hret].
    destruct (Hret Hnz) as [s Hs]. rewrite Hs.
    split; [discriminate | contradiction].
Qed.

Lemma poolproc_report_panics_iff_no_file_witness :
  exists s, PoolProc.averageReport
              {| files := []; totalFileCount := 2; poolCapacity := 14;
                 totalDirectories := 1 |} = Returned s.
Proof.
  apply (proj2 (poolproc_report_panics_iff_no_file 2 [1; 1; 1]%nat
                  [dirEntry; fileEntry; fileEntry] _ eq_refl)).
  discriminate.
Defined.

(** ** The worker count *)

(** X24. The first pool variant always starts at least one worker and at
    most twice as many as there are CPUs, and leaves a requested count
    inside that range as it is. *)
Theorem worker_count_is_clamped numCPU workers :
  0 < numCPU < 2 ^ 62 ->
  1 <= clampWorkers numCPU workers <= 2 * numCPU /\
  (1 <= workers <= 2 * numCPU -> clampWorkers numCPU workers = workers) /\
  (workers < 1 -> clampWorkers numCPU workers = 1) /\
  (2 * numCPU < workers -> clampWorkers numCPU workers = 2 * numCPU).
Proof.
  intros Hc. unfold clampWorkers.
  assert (Hm : Int64.mul numCPU 2 = 2 * numCPU).
  { unfold Int64.mul. rewrite Int64_wrap_small; [lia|].
    unfold Int64.in_range, Int64.half.
    change (2 ^ 62) with 4611686018427387904 in Hc.
    change (2 ^ 63) with 9223372036854775808. lia. }
  rewrite Hm, !Z.gtb_ltb.
  destruct (Z.ltb_spec workers 1);
    match goal with
    | |- context [?a <? ?b] => destruct (Z.ltb_spec a b)
    end; repeat split; intros; lia.
Qed.

Lemma worker_count_is_clamped_witness :
  clampWorkers 4 100 = 8 /\ clampWorkers 4 0 = 1 /\ clampWorkers 4 3 = 3.
Proof.
  destruct (worker_count_is_clamped 4 100 ltac:(split; reflexivity)) as (_ & _ & _ & H1).
  destruct (worker_count_is_clamped 4 0 ltac:(split; reflexivity)) as (_ & _ & H2 & _).
  destruct (worker_count_is_clamped 4 3 ltac:(split; reflexivity)) as (_ & H3 & _).
  split; [apply H1 | split; [apply H2 | apply H3]]; lia.
Defined.

(** X25. The pool variant that skips /proc never starts more workers
    than there are CPUs and never fewer than one; it starts at least two
    when there are at least two CPUs, and exactly one on a single CPU,
    whatever was requested. *)
Theorem worker_count_proc_is_clamped numCPU workers :
  0 < numCPU ->
  1 <= clampWorkersProc numCPU workers <= numCPU /\
  (2 <= numCPU -> 2 <= clampWorkersProc numCPU workers) /\
  (numCPU = 1 -> clampWorkersProc numCPU workers = 1) /\
  (2 <= workers <= numCPU -> clampWorkersProc numCPU workers = workers).
Proof.
  intros Hc. unfold clampWorkersProc. rewrite !Z.gtb_ltb.
  destruct (Z.ltb_spec workers 2);
    match goal with
    | |- context [?a <? ?b] => destruct (Z.ltb_spec a b)
    end; repeat split; intros; lia.
Qed.

Lemma worker_count_proc_is_clamped_witness :
  clampWorkersProc 1 8 = 1 /\ clampWorkersProc 4 0 = 2.
Proof.
  destruct (worker_count_proc_is_clamped 1 8 eq_refl) as (_ & _ & H1 & _).
  destruct (worker_count_proc_is_clamped 4 0 eq_refl) as (H2 & H3 & _).
  split; [now apply H1 | reflexivity].
Defined.
